(** * Minkowski spacetime simulator (1+1 dimensions): a verified model

    Shallow embedding of [minkowski_simulator.py], in two readings of
    its numbers.

    The exact reading (top level) takes a coordinate to be a rational
    [Q] and [+], [-], [*], [/] and [**2] to be the exact field
    operations.  It carries the statements that do not depend on how a
    result is rounded: the argument checks, the labels of events, the
    symmetry of the intersection solver, and the symmetry, the
    translation invariance and the role of the tolerance in the
    classifier.

    The binary64 reading ([Module Binary64]) is the program on the
    numbers CPython computes with.  A [float] is an IEEE 754 binary64
    number, Rocq's primitive [float]: every [+], [-], [*] and [/] rounds
    to nearest, ties to even; there are two infinities, two zeros and
    NaN, and a comparison with NaN is false.  A float division by zero
    raises [ZeroDivisionError]; [x ** 2] raises [OverflowError] when [x]
    is finite and the result is not.  Two library routines whose last
    bit depends on the platform are parameters of this reading
    ([FloatRuntime]): the C library's [pow], which computes [x ** 2],
    and the built-in [sum].  General statements hold for every runtime;
    concrete runs are evaluated in [correctly_rounded], where [x ** 2]
    is the rounded product and [sum] adds from the left.  Arguments are
    floats, as the annotations of the source say, and [direction] is an
    integer.  [Module Binary64Facts] holds the properties of this
    reading.

    Effects.  A raised exception is a [Raise] outcome.  The random source
    of [spontaneous_events] is an explicit state threaded through the
    loop.  The two [while] loops are not structurally recursive; they are
    written with a fuel argument, one unit being consumed by every
    evaluation of the loop test, and [OutOfFuel] is the outcome of a run
    that needs more.  A call that is out of fuel whatever the fuel is a
    call that does not return. *)

From Stdlib Require Import QArith Qabs Qround Qpower ZArith List String Bool.
From Stdlib Require Import Lia Lqa DecimalString DecimalNat.
From Stdlib Require Uint63.
From Stdlib Require Import Floats.
Import ListNotations.

Set Warnings "-inexact-float".

(** * The exact reading *)

(** Numbers are rationals and every operation is exact; a decimal
    constant of the source stands for the rational it writes. *)

Local Open Scope Q_scope.

(** ** Outcomes of a call *)

(** The exceptions of this reading: [ValueError], with its message,
    from the argument checks, and [ZeroDivisionError] from a division. *)
Inductive error : Type :=
| ValueError (msg : string)
| ZeroDivisionError.

Inductive result (A : Type) : Type :=
| Ok (a : A)
| Raise (e : error)
| OutOfFuel.

Arguments Ok {A} a.
Arguments Raise {A} e.
Arguments OutOfFuel {A}.

Definition bind {A B : Type} (m : result A) (k : A -> result B) : result B :=
  match m with
  | Ok a => k a
  | Raise e => Raise e
  | OutOfFuel => OutOfFuel
  end.

Notation "x <- m ;; k" := (bind m (fun x => k))
  (at level 61, m at next level, right associativity).

(** ** Comparisons and division on numbers *)

(** [x < y] as the program tests it. *)
Definition Qlt_bool (x y : Q) : bool := negb (Qle_bool y x).

(** [x / y]: raises on a zero divisor. *)
Definition py_div (x y : Q) : result Q :=
  if Qeq_bool y 0 then Raise ZeroDivisionError else Ok (x / y).

(** ** Data model *)

Inductive IntervalType : Type :=
| TIMELIKE
| SPACELIKE
| NULL.

(** The string value of each member of the enumeration. *)
Definition IntervalType_value (k : IntervalType) : string :=
  match k with
  | TIMELIKE => "timelike"
  | SPACELIKE => "spacelike"
  | NULL => "null"
  end.

Record Event : Type := mkEvent {
  ev_t : Q;
  ev_x : Q;
  ev_label : string
}.

Record WorldLine : Type := mkWorldLine {
  wl_x0 : Q;
  wl_v : Q;
  wl_t0 : Q;
  wl_label : string
}.

(** [a or b] on strings: the empty string is the only false one. *)
Definition str_or (a b : string) : string :=
  match a with
  | EmptyString => b
  | String _ _ => a
  end.

Definition position_at (self : WorldLine) (t : Q) : Q :=
  wl_x0 self + wl_v self * (t - wl_t0 self).

Definition event_at (self : WorldLine) (t : Q) (label : string) : Event :=
  mkEvent t (position_at self t) (str_or label (wl_label self)).

(** Default values of the keyword arguments. *)
Definition default_c : Q := 1.
Definition default_intersection_tol : Q := 1 # 1000000000000.
Definition loop_slack : Q := 1 # 1000000000000.

(** ** Interval classifier *)

Definition spacetime_interval_squared (a b : Event) (c : Q) : Q :=
  let dt := ev_t b - ev_t a in
  let dx := ev_x b - ev_x a in
  (c * dt) ^ 2 - dx ^ 2.

Definition classify_interval (a b : Event) (c tol : Q) : IntervalType :=
  let s2 := spacetime_interval_squared a b c in
  if Qle_bool (Qabs s2) tol then NULL
  else if Qlt_bool 0 s2 then TIMELIKE
  else SPACELIKE.

(** ** Null-line constructor *)

Definition null_line_through (event : Event) (direction : Z) (c : Q)
    (label : string) : result WorldLine :=
  if negb (Z.eqb direction (-1) || Z.eqb direction 1)
  then Raise (ValueError "direction must be -1 or +1")
  else Ok (mkWorldLine (ev_x event) (inject_Z direction * c) (ev_t event)
             label).

(** ** Intersection solver *)

Definition intersection_time (a b : WorldLine) (tol : Q) : result (option Q) :=
  let av := wl_v a in
  let bv := wl_v b in
  let denom := av - bv in
  if Qle_bool (Qabs denom) tol then Ok None
  else
    let a_const := wl_x0 a - wl_v a * wl_t0 a in
    let b_const := wl_x0 b - wl_v b * wl_t0 b in
    t <- py_div (b_const - a_const) denom ;;
    Ok (Some t).

Definition intersection_event (a b : WorldLine) (label : string)
    : result (option Event) :=
  r <- intersection_time a b default_intersection_tol ;;
  match r with
  | None => Ok None
  | Some t =>
      let x := position_at a t in
      Ok (Some (mkEvent t x label))
  end.

(** ** Interaction resolver *)

Definition light_vs_rest_interaction (light_start : Event) (rest_x : Q)
    (light_direction : Z) (c : Q) : result (option Event) :=
  light <- null_line_through light_start light_direction c "photon" ;;
  let rest := mkWorldLine rest_x 0 (ev_t light_start) "rest-object" in
  meet <- intersection_event light rest "light-rest interaction" ;;
  match meet with
  | None => Ok None
  | Some m =>
      if Qlt_bool (ev_t m) (ev_t light_start) then Ok None
      else Ok (Some m)
  end.

(** ** Stochastic event generator *)

(** The injected random source: a state and the operation that draws
    the next sample and advances the state. *)
Class RandomSource (S : Type) : Type := {
  random : S -> Q * S
}.

(** [str(idx)] for a non-negative integer. *)
Definition str_nat (idx : nat) : string :=
  NilZero.string_of_uint (Nat.to_uint idx).

(** The f-string [f"{label_prefix}-{idx}"]. *)
Definition format_label (label_prefix : string) (idx : nat) : string :=
  (label_prefix ++ "-" ++ str_nat idx)%string.

Section Generator.

Context {Rng : Type} `{RandomSource Rng}.

Fixpoint spontaneous_loop (fuel : nat) (worldline : WorldLine)
    (t_end dt probability_per_step : Q) (label_prefix : string)
    (rng : Rng) (out : list Event) (idx : nat) (t : Q)
    : result (list Event) * Rng :=
  match fuel with
  | O => (OutOfFuel, rng)
  | S fuel' =>
      if Qle_bool t (t_end + loop_slack) then
        let (u, rng') := random rng in
        if Qlt_bool u probability_per_step then
          spontaneous_loop fuel' worldline t_end dt probability_per_step
            label_prefix rng'
            (out ++ [event_at worldline t (format_label label_prefix idx)])
            (S idx) (t + dt)
        else
          spontaneous_loop fuel' worldline t_end dt probability_per_step
            label_prefix rng' out idx (t + dt)
      else (Ok out, rng)
  end.

Definition spontaneous_events (worldline : WorldLine)
    (t_start t_end dt probability_per_step : Q) (rng : Rng)
    (label_prefix : string) (fuel : nat) : result (list Event) * Rng :=
  if Qle_bool dt 0 then (Raise (ValueError "dt must be > 0"), rng)
  else if negb (Qle_bool 0 probability_per_step
                && Qle_bool probability_per_step 1)
  then (Raise (ValueError "probability_per_step must be in [0, 1]"), rng)
  else spontaneous_loop fuel worldline t_end dt probability_per_step
         label_prefix rng [] 0%nat t_start.

(** The state of the source after [n] draws, and the samples drawn. *)
Fixpoint draws (n : nat) (rng : Rng) : list Q * Rng :=
  match n with
  | O => ([], rng)
  | S n' =>
      let (u, rng') := random rng in
      let (us, rng'') := draws n' rng' in
      (u :: us, rng'')
  end.

End Generator.

(** ** Conditional sampler *)

(** [sum(xs)]: the running total starts at 0 and adds from the left. *)
Definition py_sum (xs : list Q) : Q := fold_left Qplus xs 0.

Definition sample_at (lines : list WorldLine) (t : Q) : list Event :=
  map (fun w => event_at w t (wl_label w)) lines.

Fixpoint conditional_loop (fuel : nat) (lines : list WorldLine)
    (t_end dt : Q) (predicate : Q -> list Event -> bool) (label : string)
    (out : list Event) (t : Q) : result (list Event) :=
  match fuel with
  | O => OutOfFuel
  | S fuel' =>
      if Qle_bool t (t_end + loop_slack) then
        let sample := sample_at lines t in
        if predicate t sample then
          centroid_x <-
            py_div (py_sum (map ev_x sample))
              (inject_Z (Z.max 1 (Z.of_nat (List.length sample)))) ;;
          conditional_loop fuel' lines t_end dt predicate label
            (out ++ [mkEvent t centroid_x label]) (t + dt)
        else
          conditional_loop fuel' lines t_end dt predicate label out (t + dt)
      else Ok out
  end.

Definition conditional_simulation (worldlines : list WorldLine)
    (t_start t_end dt : Q) (predicate : Q -> list Event -> bool)
    (label : string) (fuel : nat) : result (list Event) :=
  if Qle_bool dt 0 then Raise (ValueError "dt must be > 0")
  else
    let lines := worldlines in
    conditional_loop fuel lines t_end dt predicate label [] t_start.

(** ** The time grid of the two loops *)

(** Number of times the loop body runs: the number of grid points
    [t_start + i * dt] that do not exceed [t_end + 1e-12]. *)
Definition remaining (t_end dt t : Q) : Q := (t_end + loop_slack - t) / dt.

Definition n_steps (t_start t_end dt : Q) : nat :=
  Z.to_nat (Qfloor (remaining t_end dt t_start) + 1).

(** The successive values of the loop variable [t]. *)
Fixpoint step_times (n : nat) (t dt : Q) : list Q :=
  match n with
  | O => []
  | S n' => t :: step_times n' (t + dt) dt
  end.

(** ** What the specification says the two samplers return *)

(** Events for the emitting times, numbered in order from [idx]. *)
Fixpoint emitted_events (worldline : WorldLine) (label_prefix : string)
    (idx : nat) (ts : list Q) : list Event :=
  match ts with
  | [] => []
  | t :: ts' =>
      mkEvent t (position_at worldline t) (format_label label_prefix idx)
      :: emitted_events worldline label_prefix (S idx) ts'
  end.

(** One sample per time; a time emits exactly when its sample is below
    the probability. *)
Definition emitting_times (probability_per_step : Q) (ts us : list Q)
    : list Q :=
  map fst (filter (fun tu => Qlt_bool (snd tu) probability_per_step)
             (combine ts us)).

(** ** Test fixtures *)

(** A scripted random source: replays a list of samples, then zeros. *)
#[export] Instance scripted_source : RandomSource (list Q) := {
  random := fun s =>
    match s with
    | [] => (0, [])
    | u :: s' => (u, s')
    end
}.

(** * The binary64 reading *)

(** The program on the numbers CPython computes with.  Every definition
    below follows the source statement by statement; [+], [-], [*] and
    [/] are the rounded operations of [PrimFloat], and [<=?], [<?] and
    [=?] are the IEEE comparisons, false as soon as one side is NaN. *)

Module Binary64.

Local Open Scope float_scope.

(** *** Outcomes of a call *)

(** The exceptions the program can raise: [ValueError], with its
    message, from the argument checks, [ZeroDivisionError] from a float
    division and [OverflowError] from [x ** 2]. *)
Inductive error : Type :=
| ValueError (msg : string)
| ZeroDivisionError
| OverflowError.

Inductive result (A : Type) : Type :=
| Ok (a : A)
| Raise (e : error)
| OutOfFuel.

Arguments Ok {A} a.
Arguments Raise {A} e.
Arguments OutOfFuel {A}.

Definition bind {A B : Type} (m : result A) (k : A -> result B) : result B :=
  match m with
  | Ok a => k a
  | Raise e => Raise e
  | OutOfFuel => OutOfFuel
  end.

Local Notation "x <-- m ;; k" := (bind m (fun x => k))
  (at level 61, m at next level, right associativity).

(** *** Operations of the runtime *)

(** An integer converted to a float, as in [direction * c] and in
    [... / max(1, len(sample))]; exact below [2^53]. *)
Definition float_of_Z (z : Z) : float :=
  match z with
  | Z0 => 0
  | Zpos _ => of_uint63 (Uint63.of_Z z)
  | Zneg p => - of_uint63 (Uint63.of_Z (Zpos p))
  end.

(** [x / y] on floats: raises on a zero divisor, of either sign. *)
Definition py_div (x y : float) : result float :=
  if y =? 0 then Raise ZeroDivisionError else Ok (x / y).

(** The two library routines behind [x ** 2] and [sum(...)].
    [float_pow2 x] is the float that [x ** 2] evaluates to: CPython
    obtains it from the C library's [pow], whose result is close to the
    square but need not be the rounded product [x * x], and differs
    between libraries.  [float_sum xs] is the built-in [sum] on a
    non-empty sequence of floats: an addition from the left, starting
    from 0, before CPython 3.12, and a compensated summation from 3.12
    on. *)
Class FloatRuntime : Type := {
  float_pow2 : float -> float;
  float_sum : list float -> float
}.

(** The runtime in which [x ** 2] is the rounded product [x * x] and
    [sum] adds from the left, starting from 0. *)
Definition correctly_rounded : FloatRuntime := {|
  float_pow2 := fun x => x * x;
  float_sum := fun xs => fold_left PrimFloat.add xs 0
|}.

(** [x ** 2]: [OverflowError] when [x] is finite and the result is
    not. *)
Definition py_square `{FloatRuntime} (x : float) : result float :=
  let y := float_pow2 x in
  if is_finite x && is_infinity y then Raise OverflowError else Ok y.

(** [sum(xs)]: the integer 0 for an empty sequence, which the division
    that follows converts to the float 0. *)
Definition py_sum `{FloatRuntime} (xs : list float) : float :=
  match xs with
  | [] => 0
  | _ :: _ => float_sum xs
  end.

(** *** Data model *)

Record Event : Type := mkEvent {
  ev_t : float;
  ev_x : float;
  ev_label : string
}.

Record WorldLine : Type := mkWorldLine {
  wl_x0 : float;
  wl_v : float;
  wl_t0 : float;
  wl_label : string
}.

Definition position_at (self : WorldLine) (t : float) : float :=
  wl_x0 self + wl_v self * (t - wl_t0 self).

Definition event_at (self : WorldLine) (t : float) (label : string) : Event :=
  mkEvent t (position_at self t) (str_or label (wl_label self)).

(** The default values of [c], of [tol] in [classify_interval] and of
    [tol] in [intersection_time], and the constant added to [t_end] by
    the two loops: the binary64 numbers nearest to the decimals. *)
Definition default_c : float := 1.0.
Definition default_intersection_tol : float := 1e-12.
Definition loop_slack : float := 1e-12.

(** *** Interval classifier *)

Definition spacetime_interval_squared `{FloatRuntime} (a b : Event)
    (c : float) : result float :=
  let dt := ev_t b - ev_t a in
  let dx := ev_x b - ev_x a in
  p <-- py_square (c * dt) ;;
  q <-- py_square dx ;;
  Ok (p - q).

Definition classify_interval `{FloatRuntime} (a b : Event) (c tol : float)
    : result IntervalType :=
  s2 <-- spacetime_interval_squared a b c ;;
  if abs s2 <=? tol then Ok NULL
  else if 0 <? s2 then Ok TIMELIKE
  else Ok SPACELIKE.

(** *** Null-line constructor *)

Definition null_line_through (event : Event) (direction : Z) (c : float)
    (label : string) : result WorldLine :=
  if negb (Z.eqb direction (-1) || Z.eqb direction 1)
  then Raise (ValueError "direction must be -1 or +1")
  else Ok (mkWorldLine (ev_x event) (float_of_Z direction * c) (ev_t event)
             label).

(** *** Intersection solver *)

Definition intersection_time (a b : WorldLine) (tol : float)
    : result (option float) :=
  let av := wl_v a in
  let bv := wl_v b in
  let denom := av - bv in
  if abs denom <=? tol then Ok None
  else
    let a_const := wl_x0 a - wl_v a * wl_t0 a in
    let b_const := wl_x0 b - wl_v b * wl_t0 b in
    t <-- py_div (b_const - a_const) denom ;;
    Ok (Some t).

Definition intersection_event (a b : WorldLine) (label : string)
    : result (option Event) :=
  r <-- intersection_time a b default_intersection_tol ;;
  match r with
  | None => Ok None
  | Some t =>
      let x := position_at a t in
      Ok (Some (mkEvent t x label))
  end.

(** *** Interaction resolver *)

Definition light_vs_rest_interaction (light_start : Event) (rest_x : float)
    (light_direction : Z) (c : float) : result (option Event) :=
  light <-- null_line_through light_start light_direction c "photon" ;;
  let rest := mkWorldLine rest_x 0.0 (ev_t light_start) "rest-object" in
  meet <-- intersection_event light rest "light-rest interaction" ;;
  match meet with
  | None => Ok None
  | Some m =>
      if ev_t m <? ev_t light_start then Ok None
      else Ok (Some m)
  end.

(** *** Stochastic event generator *)

(** The injected random source: a state and the operation that draws
    the next sample and advances the state. *)
Class RandomSource (S : Type) : Type := {
  random : S -> float * S
}.

Section Generator.

Context {Rng : Type} `{RandomSource Rng}.

(** The [while] loop of [spontaneous_events]; [t + dt] is the rounded
    sum, as in [t += dt]. *)
Fixpoint spontaneous_loop (fuel : nat) (worldline : WorldLine)
    (t_end dt probability_per_step : float) (label_prefix : string)
    (rng : Rng) (out : list Event) (idx : nat) (t : float)
    : result (list Event) * Rng :=
  match fuel with
  | O => (OutOfFuel, rng)
  | S fuel' =>
      if t <=? t_end + loop_slack then
        let (u, rng') := random rng in
        if u <? probability_per_step then
          spontaneous_loop fuel' worldline t_end dt probability_per_step
            label_prefix rng'
            (out ++ [event_at worldline t (format_label label_prefix idx)])
            (S idx) (t + dt)
        else
          spontaneous_loop fuel' worldline t_end dt probability_per_step
            label_prefix rng' out idx (t + dt)
      else (Ok out, rng)
  end.

Definition spontaneous_events (worldline : WorldLine)
    (t_start t_end dt probability_per_step : float) (rng : Rng)
    (label_prefix : string) (fuel : nat) : result (list Event) * Rng :=
  if dt <=? 0 then (Raise (ValueError "dt must be > 0"), rng)
  else if negb ((0.0 <=? probability_per_step)
                && (probability_per_step <=? 1.0))
  then (Raise (ValueError "probability_per_step must be in [0, 1]"), rng)
  else spontaneous_loop fuel worldline t_end dt probability_per_step
         label_prefix rng [] 0%nat t_start.

(** The samples of [n] successive draws, and the state of the source
    after them. *)
Fixpoint draws (n : nat) (rng : Rng) : list float * Rng :=
  match n with
  | O => ([], rng)
  | S n' =>
      let (u, rng') := random rng in
      let (us, rng'') := draws n' rng' in
      (u :: us, rng'')
  end.

End Generator.

(** *** Conditional sampler *)

Definition sample_at (lines : list WorldLine) (t : float) : list Event :=
  map (fun w => event_at w t (wl_label w)) lines.

(** The [while] loop of [conditional_simulation]. *)
Fixpoint conditional_loop `{FloatRuntime} (fuel : nat)
    (lines : list WorldLine) (t_end dt : float)
    (predicate : float -> list Event -> bool) (label : string)
    (out : list Event) (t : float) : result (list Event) :=
  match fuel with
  | O => OutOfFuel
  | S fuel' =>
      if t <=? t_end + loop_slack then
        let sample := sample_at lines t in
        if predicate t sample then
          centroid_x <--
            py_div (py_sum (map ev_x sample))
              (float_of_Z (Z.max 1 (Z.of_nat (List.length sample)))) ;;
          conditional_loop fuel' lines t_end dt predicate label
            (out ++ [mkEvent t centroid_x label]) (t + dt)
        else
          conditional_loop fuel' lines t_end dt predicate label out (t + dt)
      else Ok out
  end.

Definition conditional_simulation `{FloatRuntime}
    (worldlines : list WorldLine) (t_start t_end dt : float)
    (predicate : float -> list Event -> bool) (label : string)
    (fuel : nat) : result (list Event) :=
  if dt <=? 0 then Raise (ValueError "dt must be > 0")
  else
    let lines := worldlines in
    conditional_loop fuel lines t_end dt predicate label [] t_start.

(** *** The values of the loop variable *)

(** The first [n] values of [t]: [t], [t + dt], [(t + dt) + dt], ...,
    each the rounded sum of the one before and [dt]. *)
Fixpoint step_times (n : nat) (t dt : float) : list float :=
  match n with
  | O => []
  | S n' => t :: step_times n' (t + dt) dt
  end.

(** The loop started at [t] runs its body exactly [n] times: the test
    [t <= t_end + 1e-12] holds of the first [n] values of the loop
    variable and fails of the next. *)
Fixpoint runs_for (n : nat) (t t_end dt : float) : bool :=
  match n with
  | O => negb (t <=? t_end + loop_slack)
  | S n' => (t <=? t_end + loop_slack) && runs_for n' (t + dt) t_end dt
  end.

(** One sample per time; a time emits exactly when its sample is below
    the probability. *)
Definition emitting_times (probability_per_step : float) (ts us : list float)
    : list float :=
  map fst (filter (fun tu => snd tu <? probability_per_step)
             (combine ts us)).

(** Events for the emitting times, numbered in order from [idx]. *)
Fixpoint emitted_events (worldline : WorldLine) (label_prefix : string)
    (idx : nat) (ts : list float) : list Event :=
  match ts with
  | [] => []
  | t :: ts' =>
      mkEvent t (position_at worldline t) (format_label label_prefix idx)
      :: emitted_events worldline label_prefix (S idx) ts'
  end.

(** Sum of the sampled positions over [max(1, number of samples)]. *)
Definition centroid `{FloatRuntime} (sample : list Event) : float :=
  py_sum (map ev_x sample)
  / float_of_Z (Z.max 1 (Z.of_nat (List.length sample))).

(** *** Test fixtures *)

(** A scripted random source: replays a list of samples, then zeros. *)
#[export] Instance scripted_source : RandomSource (list float) := {
  random := fun s =>
    match s with
    | [] => (0, [])
    | u :: s' => (u, s')
    end
}.

(** A source whose every sample is 0.5. *)
Definition constant_source : RandomSource unit := {|
  random := fun s => (0.5, s)
|}.

Definition line_a : WorldLine := mkWorldLine (-1) 1 0 "a".
Definition line_b : WorldLine := mkWorldLine 1 (-1) 0 "b".

(** [lambda _t, evs: abs(evs[0].x - evs[1].x) <= 0.5], on a sample of
    two lines. *)
Definition close_predicate (_t : float) (evs : list Event) : bool :=
  match evs with
  | e0 :: e1 :: _ => abs (ev_x e0 - ev_x e1) <=? 0.5
  | _ => false
  end.

(** *** Order and value of a binary64 number *)

(** A key whose lexicographic order is the order of the floats: a class
    (-2 for the negative infinity, -1 for negative numbers, 0 for the
    two zeros, 1 for positive numbers, 2 for the positive infinity),
    then the exponent and the mantissa, negated for negative numbers.
    NaN has no key. *)
Definition order_key (x : spec_float) : option (Z * Z * Z) :=
  match x with
  | S754_nan => None
  | S754_zero _ => Some (0, 0, 0)%Z
  | S754_infinity false => Some (2, 0, 0)%Z
  | S754_infinity true => Some (-2, 0, 0)%Z
  | S754_finite false m e => Some (1, e, Zpos m)%Z
  | S754_finite true m e => Some (-1, - e, Zneg m)%Z
  end.

Definition fkey (x : float) : option (Z * Z * Z) := order_key (Prim2SF x).

Definition key_lt (k1 k2 : option (Z * Z * Z)) : Prop :=
  match k1, k2 with
  | Some (a, b, c), Some (a', b', c') =>
      (a < a' \/ (a = a' /\ (b < b' \/ (b = b' /\ c < c'))))%Z
  | _, _ => False
  end.

Definition key_eq (k1 k2 : option (Z * Z * Z)) : Prop :=
  match k1, k2 with
  | Some (a, b, c), Some (a', b', c') => (a = a' /\ b = b' /\ c = c')%Z
  | _, _ => False
  end.

Definition key_opp (k : option (Z * Z * Z)) : option (Z * Z * Z) :=
  match k with
  | Some (a, b, c) => Some (- a, - b, - c)%Z
  | None => None
  end.

Definition key_abs (k : option (Z * Z * Z)) : option (Z * Z * Z) :=
  match k with
  | Some (a, b, c) => if (a <? 0)%Z then key_opp k else k
  | None => None
  end.

(** The keys that floats have. *)
Definition key_wf (k : option (Z * Z * Z)) : Prop :=
  match k with
  | Some (a, b, c) =>
      ((a = 0 \/ a = 2 \/ a = -2) /\ b = 0 /\ c = 0
       \/ (a = 1 /\ 0 < c) \/ (a = -1 /\ c < 0))%Z
  | None => True
  end.

(** The real number a finite float stands for: [m * 2^e], signed. *)
Definition value (x : float) : option Q :=
  match Prim2SF x with
  | S754_zero _ => Some 0%Q
  | S754_finite s m e =>
      Some ((if s then - inject_Z (Zpos m) else inject_Z (Zpos m))
            * (2 ^ e))%Q
  | S754_infinity _ | S754_nan => None
  end.

End Binary64.

(** * Properties of the exact reading *)

(** ** Comparisons *)

Lemma Qlt_bool_iff (x y : Q) : Qlt_bool x y = true <-> x < y.
Proof.
  unfold Qlt_bool. rewrite negb_true_iff.
  split; intro Hlt.
  - apply Qnot_le_lt. intro Hle.
    apply Qle_bool_iff in Hle. congruence.
  - destruct (Qle_bool y x) eqn:E; trivial.
    apply Qle_bool_iff in E. apply Qle_not_lt in E. contradiction.
Qed.


Lemma Qle_bool_false_iff (x y : Q) : Qle_bool x y = false <-> y < x.
Proof.
  rewrite <- Qlt_bool_iff. unfold Qlt_bool.
  destruct (Qle_bool x y); simpl; intuition congruence.
Qed.


#[local] Instance Qlt_bool_comp : Proper (Qeq ==> Qeq ==> eq) Qlt_bool.
Proof.
  intros x x' Hx y y' Hy. unfold Qlt_bool. now rewrite Hx, Hy.
Qed.

(** ** World lines and events *)

Lemma str_or_nonempty (a b : string) : a <> EmptyString -> str_or a b = a.
Proof. destruct a; [congruence | reflexivity]. Qed.

Lemma str_or_same (a : string) : str_or a a = a.
Proof. now destruct a. Qed.

Lemma event_at_own_label (w : WorldLine) (t : Q) :
  event_at w t (wl_label w) = mkEvent t (position_at w t) (wl_label w).
Proof. unfold event_at. now rewrite str_or_same. Qed.

(** C10: [event_at] builds the event at time [t] on the line; its label
    is the [label] argument when that is a non-empty string and the
    label of the world line otherwise, so the default empty label and an
    explicit empty label both give the line's own label.  The call
    [w.event_at(t, label=w.label)] made by the conditional sampler
    therefore carries the line's label. *)
Theorem event_at_label (w : WorldLine) (t : Q) (label : string) :
  event_at w t label
  = mkEvent t (position_at w t)
      (if string_dec label "" then wl_label w else label)
  /\ position_at w t = wl_x0 w + wl_v w * (t - wl_t0 w)
  /\ event_at w t "" = mkEvent t (position_at w t) (wl_label w)
  /\ (label <> ""%string -> ev_label (event_at w t label) = label)
  /\ sample_at [w] t = [mkEvent t (position_at w t) (wl_label w)].
Proof.
  repeat split.
  - unfold event_at. destruct (string_dec label "") as [-> | Hne].
    + reflexivity.
    + now rewrite str_or_nonempty.
  - intro Hne. simpl. now apply str_or_nonempty.
  - simpl. now rewrite event_at_own_label.
Qed.

(** ** Interval classifier *)



(** ** Intersection solver *)

Lemma py_div_nonzero (x y : Q) : ~ y == 0 -> py_div x y = Ok (x / y).
Proof.
  intro Hy. unfold py_div.
  destruct (Qeq_bool y 0) eqn:E; trivial.
  apply Qeq_bool_iff in E. contradiction.
Qed.

Lemma intersection_time_parallel (a b : WorldLine) (tol : Q) :
  intersection_time a b tol = Ok None <-> Qabs (wl_v a - wl_v b) <= tol.
Proof.
  unfold intersection_time. cbv zeta. rewrite <- Qle_bool_iff.
  destruct (Qle_bool _ tol); [tauto |].
  split; [| discriminate].
  unfold py_div. destruct (Qeq_bool _ 0); discriminate.
Qed.

Lemma intersection_time_crossing (a b : WorldLine) (tol : Q) :
  0 <= tol -> ~ Qabs (wl_v a - wl_v b) <= tol ->
  intersection_time a b tol
  = Ok (Some (((wl_x0 b - wl_v b * wl_t0 b) - (wl_x0 a - wl_v a * wl_t0 a))
              / (wl_v a - wl_v b))).
Proof.
  intros Htol Hfar. unfold intersection_time. cbv zeta.
  destruct (Qle_bool _ tol) eqn:E.
  - apply Qle_bool_iff in E. contradiction.
  - rewrite py_div_nonzero; [reflexivity |].
    intro Hz. apply Hfar. rewrite Hz. exact Htol.
Qed.

(** The time given by the closed form solves the equation of the two
    lines, and is its only solution. *)
Lemma crossing_time_solves (a b : WorldLine) :
  ~ wl_v a - wl_v b == 0 ->
  let t := ((wl_x0 b - wl_v b * wl_t0 b) - (wl_x0 a - wl_v a * wl_t0 a))
           / (wl_v a - wl_v b) in
  position_at a t == position_at b t
  /\ forall t', position_at a t' == position_at b t' -> t' == t.
Proof.
  intros Hd t. unfold position_at. split.
  - unfold t. field. exact Hd.
  - intros t' Heq. unfold t. 
    apply (Qmult_inj_r _ _ (wl_v a - wl_v b) Hd).
    transitivity ((wl_x0 b - wl_v b * wl_t0 b) - (wl_x0 a - wl_v a * wl_t0 a)).
    + lra.
    + field. exact Hd.
Qed.

Lemma default_intersection_tol_nonneg : 0 <= default_intersection_tol.
Proof. discriminate. Qed.

(** With the default tolerance [intersection_event] never raises: it is
    absent for lines closer than the tolerance in velocity, and the
    crossing event otherwise. *)
Lemma intersection_event_cases (a b : WorldLine) (label : string) :
  (Qabs (wl_v a - wl_v b) <= default_intersection_tol
   /\ intersection_event a b label = Ok None)
  \/ (~ Qabs (wl_v a - wl_v b) <= default_intersection_tol
      /\ exists t,
           intersection_event a b label
           = Ok (Some (mkEvent t (position_at a t) label))
           /\ position_at a t == position_at b t).
Proof.
  unfold intersection_event.
  destruct (Qlt_le_dec default_intersection_tol (Qabs (wl_v a - wl_v b)))
    as [Hfar | Hnear].
  - right. apply Qlt_not_le in Hfar. split; trivial.
    rewrite intersection_time_crossing
      by (trivial; apply default_intersection_tol_nonneg).
    eexists. split; [reflexivity |].
    apply crossing_time_solves.
    intro Hz. apply Hfar. rewrite Hz. discriminate.
  - left. split; trivial.
    apply intersection_time_parallel in Hnear. now rewrite Hnear.
Qed.

Lemma null_line_through_valid (event : Event) (direction : Z) (c : Q)
    (label : string) :
  direction = (-1)%Z \/ direction = 1%Z ->
  null_line_through event direction c label
  = Ok (mkWorldLine (ev_x event) (inject_Z direction * c) (ev_t event) label).
Proof. intros [-> | ->]; reflexivity. Qed.

Lemma null_line_through_invalid (event : Event) (direction : Z) (c : Q)
    (label : string) :
  direction <> (-1)%Z -> direction <> 1%Z ->
  null_line_through event direction c label
  = Raise (ValueError "direction must be -1 or +1").
Proof.
  intros Hm Hp. unfold null_line_through.
  apply Z.eqb_neq in Hm, Hp. now rewrite Hm, Hp.
Qed.

(** ** Argument checks *)

Section GeneratorChecks.

Context {Rng : Type} `{RandomSource Rng}.

Lemma spontaneous_loop_no_raise (fuel : nat) (w : WorldLine)
    (t_end dt p : Q) (prefix : string) :
  forall (rng : Rng) (out : list Event) (idx : nat) (t : Q) (e : error),
    fst (spontaneous_loop fuel w t_end dt p prefix rng out idx t)
    <> Raise e.
Proof.
  induction fuel as [| fuel IH]; intros rng out idx t e; simpl.
  - discriminate.
  - destruct (Qle_bool t (t_end + loop_slack)); [| discriminate].
    destruct (random rng) as [u rng'].
    destruct (Qlt_bool u p); apply IH.
Qed.

Lemma spontaneous_events_bad_dt (w : WorldLine) (t_start t_end dt p : Q)
    (rng : Rng) (prefix : string) (fuel : nat) :
  dt <= 0 ->
  spontaneous_events w t_start t_end dt p rng prefix fuel
  = (Raise (ValueError "dt must be > 0"), rng).
Proof.
  intro Hdt. unfold spontaneous_events.
  apply Qle_bool_iff in Hdt. now rewrite Hdt.
Qed.

Lemma spontaneous_events_bad_probability (w : WorldLine)
    (t_start t_end dt p : Q) (rng : Rng) (prefix : string) (fuel : nat) :
  0 < dt -> p < 0 \/ 1 < p ->
  spontaneous_events w t_start t_end dt p rng prefix fuel
  = (Raise (ValueError "probability_per_step must be in [0, 1]"), rng).
Proof.
  intros Hdt Hp. unfold spontaneous_events.
  apply Qle_bool_false_iff in Hdt. rewrite Hdt.
  assert (Hin : Qle_bool 0 p && Qle_bool p 1 = false).
  { apply andb_false_iff.
    destruct Hp as [Hp | Hp]; apply Qle_bool_false_iff in Hp; auto. }
  now rewrite Hin.
Qed.

Lemma spontaneous_events_valid (w : WorldLine) (t_start t_end dt p : Q)
    (rng : Rng) (prefix : string) (fuel : nat) :
  0 < dt -> 0 <= p -> p <= 1 ->
  spontaneous_events w t_start t_end dt p rng prefix fuel
  = spontaneous_loop fuel w t_end dt p prefix rng [] 0%nat t_start.
Proof.
  intros Hdt Hp0 Hp1. unfold spontaneous_events.
  apply Qle_bool_false_iff in Hdt. apply Qle_bool_iff in Hp0, Hp1.
  now rewrite Hdt, Hp0, Hp1.
Qed.

End GeneratorChecks.

Lemma centroid_divisor_nonzero (sample : list Event) :
  ~ inject_Z (Z.max 1 (Z.of_nat (List.length sample))) == 0.
Proof.
  unfold Qeq. simpl. lia.
Qed.

Lemma conditional_loop_no_raise (fuel : nat) (lines : list WorldLine)
    (t_end dt : Q) (predicate : Q -> list Event -> bool) (label : string) :
  forall (out : list Event) (t : Q) (e : error),
    conditional_loop fuel lines t_end dt predicate label out t <> Raise e.
Proof.
  induction fuel as [| fuel IH]; intros out t e; simpl.
  - discriminate.
  - destruct (Qle_bool t (t_end + loop_slack)); [| discriminate].
    destruct (predicate t (sample_at lines t)); [| apply IH].
    rewrite py_div_nonzero by apply centroid_divisor_nonzero.
    simpl. apply IH.
Qed.

Lemma conditional_simulation_bad_dt (lines : list WorldLine)
    (t_start t_end dt : Q) (predicate : Q -> list Event -> bool)
    (label : string) (fuel : nat) :
  dt <= 0 ->
  conditional_simulation lines t_start t_end dt predicate label fuel
  = Raise (ValueError "dt must be > 0").
Proof.
  intro Hdt. unfold conditional_simulation.
  apply Qle_bool_iff in Hdt. now rewrite Hdt.
Qed.

Lemma conditional_simulation_valid (lines : list WorldLine)
    (t_start t_end dt : Q) (predicate : Q -> list Event -> bool)
    (label : string) (fuel : nat) :
  0 < dt ->
  conditional_simulation lines t_start t_end dt predicate label fuel
  = conditional_loop fuel lines t_end dt predicate label [] t_start.
Proof.
  intro Hdt. unfold conditional_simulation.
  apply Qle_bool_false_iff in Hdt. now rewrite Hdt.
Qed.

(** C4: the argument checks.  [null_line_through] raises [ValueError]
    (the InvalidArgument condition) exactly when the direction is
    neither -1 nor +1; [spontaneous_events] exactly when [dt <= 0] or
    the probability is outside [[0, 1]]; [conditional_simulation]
    exactly when [dt <= 0].  The check comes before any other work: the
    call raises whatever fuel is granted (even none), no sample is drawn
    from the random source, and neither the world lines nor the
    predicate are looked at.  No other exception is raised. *)
Theorem invalid_argument_checks :
  (forall (event : Event) (direction : Z) (c : Q) (label : string),
     let r := null_line_through event direction c label in
     ((exists e, r = Raise e) <-> direction <> (-1)%Z /\ direction <> 1%Z)
     /\ forall e, r = Raise e -> e = ValueError "direction must be -1 or +1")
  /\ (forall (Rng : Type) (src : RandomSource Rng) (w : WorldLine)
        (t_start t_end dt p : Q) (rng : Rng) (prefix : string) (fuel : nat),
      let r := spontaneous_events w t_start t_end dt p rng prefix fuel in
      ((exists e, fst r = Raise e) <-> dt <= 0 \/ p < 0 \/ 1 < p)
      /\ (forall e, fst r = Raise e ->
          (e = ValueError "dt must be > 0"
           \/ e = ValueError "probability_per_step must be in [0, 1]")
          /\ snd r = rng
          /\ forall w' t_start' t_end' prefix',
               spontaneous_events w' t_start' t_end' dt p rng prefix' 0 = r))
  /\ (forall (lines : list WorldLine) (t_start t_end dt : Q)
        (predicate : Q -> list Event -> bool) (label : string) (fuel : nat),
      let r := conditional_simulation lines t_start t_end dt predicate label
                 fuel in
      ((exists e, r = Raise e) <-> dt <= 0)
      /\ (forall e, r = Raise e ->
          e = ValueError "dt must be > 0"
          /\ forall lines' t_start' t_end' predicate' label',
               conditional_simulation lines' t_start' t_end' dt predicate'
                 label' 0 = r)).
Proof.
  split; [| split].
  - intros event direction c label r. unfold r.
    destruct (Z.eq_dec direction (-1)) as [Hm | Hm];
      [| destruct (Z.eq_dec direction 1) as [Hp | Hp]].
    + rewrite null_line_through_valid by auto.
      split; [split |]; [intros [e He] | intros [Hn _] | intros e He];
        try discriminate; contradiction.
    + rewrite null_line_through_valid by auto.
      split; [split |]; [intros [e He] | intros [_ Hn] | intros e He];
        try discriminate; contradiction.
    + rewrite null_line_through_invalid by trivial.
      split; [split |]; [auto | eauto | intros e He; congruence].
  - intros Rng src w t_start t_end dt p rng prefix fuel r. unfold r.
    destruct (Qlt_le_dec 0 dt) as [Hdt | Hdt].
    + destruct (Qlt_le_dec p 0) as [Hp0 | Hp0];
        [| destruct (Qlt_le_dec 1 p) as [Hp1 | Hp1]].
      * rewrite !spontaneous_events_bad_probability by auto.
        split; [split; [tauto | intros _; eexists; reflexivity] |].
        intros e He. simpl in He. inversion He; subst e.
        repeat split; auto.
        intros. now rewrite spontaneous_events_bad_probability by auto.
      * rewrite !spontaneous_events_bad_probability by auto.
        split; [split; [tauto | intros _; eexists; reflexivity] |].
        intros e He. simpl in He. inversion He; subst e.
        repeat split; auto.
        intros. now rewrite spontaneous_events_bad_probability by auto.
      * rewrite spontaneous_events_valid by trivial.
        split; [split |].
        -- intros [e He]. now apply spontaneous_loop_no_raise in He.
        -- intros [Hbad | [Hbad | Hbad]]; lra.
        -- intros e He. now apply spontaneous_loop_no_raise in He.
    + rewrite !spontaneous_events_bad_dt by trivial.
      split; [split; [tauto | intros _; eexists; reflexivity] |].
      intros e He. simpl in He. inversion He; subst e.
      repeat split; auto.
      intros. now rewrite spontaneous_events_bad_dt.
  - intros lines t_start t_end dt predicate label fuel r. unfold r.
    destruct (Qlt_le_dec 0 dt) as [Hdt | Hdt].
    + rewrite conditional_simulation_valid by trivial.
      split; [split |].
      * intros [e He]. now apply conditional_loop_no_raise in He.
      * intro Hbad. lra.
      * intros e He. now apply conditional_loop_no_raise in He.
    + rewrite !conditional_simulation_bad_dt by trivial.
      split; [split; [tauto | intros _; eexists; reflexivity] |].
      intros e He. inversion He; subst e. split; trivial.
      intros. now rewrite conditional_simulation_bad_dt.
Qed.

(** ** The time grid *)

Lemma Qfloor_unique (x : Q) (k : Z) :
  inject_Z k <= x -> x < inject_Z (k + 1) -> Qfloor x = k.
Proof.
  intros Hlo Hhi.
  assert (Hk : (k <= Qfloor x)%Z).
  { rewrite <- (Qfloor_Z k). now apply Qfloor_resp_le. }
  assert (Hf : (Qfloor x < k + 1)%Z).
  { rewrite Zlt_Qlt. apply Qle_lt_trans with x; [apply Qfloor_le | exact Hhi]. }
  lia.
Qed.

Section TimeGrid.

Variables t_end dt : Q.
Hypothesis dt_pos : 0 < dt.

Lemma remaining_step (t : Q) :
  remaining t_end dt (t + dt) == remaining t_end dt t - 1.
Proof. unfold remaining. field. lra. Qed.

Lemma remaining_nonneg (t : Q) :
  t <= t_end + loop_slack <-> 0 <= remaining t_end dt t.
Proof.
  unfold remaining. split; intro Hle.
  - apply Qle_shift_div_l; [exact dt_pos | lra].
  - assert (Hm : (t_end + loop_slack - t) / dt * dt
                 == t_end + loop_slack - t) by (field; lra).
    assert (Hp : 0 <= (t_end + loop_slack - t) / dt * dt)
      by (apply Qmult_le_0_compat; lra).
    lra.
Qed.

Lemma n_steps_stop (t : Q) :
  t_end + loop_slack < t -> n_steps t t_end dt = 0%nat.
Proof.
  intro Hgt. unfold n_steps.
  assert (Hneg : remaining t_end dt t < 0).
  { destruct (Qlt_le_dec (remaining t_end dt t) 0) as [Hlt | Hge]; trivial.
    apply remaining_nonneg in Hge. lra. }
  assert (Hf : (Qfloor (remaining t_end dt t) < 0)%Z).
  { rewrite Zlt_Qlt. apply Qle_lt_trans with (remaining t_end dt t);
      [apply Qfloor_le | exact Hneg]. }
  lia.
Qed.

Lemma n_steps_go (t : Q) :
  t <= t_end + loop_slack ->
  n_steps t t_end dt = S (n_steps (t + dt) t_end dt).
Proof.
  intro Hle. unfold n_steps.
  apply remaining_nonneg in Hle.
  assert (Hf : (0 <= Qfloor (remaining t_end dt t))%Z).
  { change 0%Z with (Qfloor 0). now apply Qfloor_resp_le. }
  assert (Hstep : Qfloor (remaining t_end dt (t + dt))
                  = (Qfloor (remaining t_end dt t) - 1)%Z).
  { assert (Hlo := Qfloor_le (remaining t_end dt t)).
    assert (Hhi := Qlt_floor (remaining t_end dt t)).
    rewrite inject_Z_plus in Hhi. change (inject_Z 1) with 1 in Hhi.
    apply Qfloor_unique; rewrite remaining_step.
    - unfold Z.sub. rewrite inject_Z_plus.
      rewrite inject_Z_opp. change (inject_Z 1) with 1. lra.
    - replace (Qfloor (remaining t_end dt t) - 1 + 1)%Z
        with (Qfloor (remaining t_end dt t)) by lia.
      lra. }
  rewrite Hstep. lia.
Qed.

Lemma n_steps_zero_inv (t : Q) :
  n_steps t t_end dt = 0%nat -> Qle_bool t (t_end + loop_slack) = false.
Proof.
  intro Hn. destruct (Qle_bool t (t_end + loop_slack)) eqn:E; trivial.
  apply Qle_bool_iff, n_steps_go in E. congruence.
Qed.

Lemma n_steps_succ_inv (t : Q) (n : nat) :
  n_steps t t_end dt = S n ->
  Qle_bool t (t_end + loop_slack) = true
  /\ n_steps (t + dt) t_end dt = n.
Proof.
  intro Hn. destruct (Qle_bool t (t_end + loop_slack)) eqn:E.
  - apply Qle_bool_iff, n_steps_go in E. split; congruence.
  - apply Qle_bool_false_iff, n_steps_stop in E. congruence.
Qed.

End TimeGrid.

(** ** The stochastic generator against its specification *)

Lemma format_label_nonempty (prefix : string) (idx : nat) :
  format_label prefix idx <> ""%string.
Proof. unfold format_label. destruct prefix; discriminate. Qed.

Lemma event_at_formatted (w : WorldLine) (t : Q) (prefix : string)
    (idx : nat) :
  event_at w t (format_label prefix idx)
  = mkEvent t (position_at w t) (format_label prefix idx).
Proof.
  unfold event_at. now rewrite str_or_nonempty by apply format_label_nonempty.
Qed.

Section GeneratorRuns.

Context {Rng : Type} `{RandomSource Rng}.
Variables (w : WorldLine) (t_end dt p : Q) (prefix : string).
Hypothesis dt_pos : 0 < dt.

Lemma spontaneous_loop_run (n : nat) :
  forall (t : Q) (rng : Rng) (out : list Event) (idx fuel : nat),
    n_steps t t_end dt = n -> (n < fuel)%nat ->
    spontaneous_loop fuel w t_end dt p prefix rng out idx t
    = (Ok (out ++ emitted_events w prefix idx
                    (emitting_times p (step_times n t dt)
                       (fst (draws n rng)))),
       snd (draws n rng)).
Proof.
  induction n as [| n IH]; intros t rng out idx fuel Hn Hfuel;
    (destruct fuel as [| fuel]; [lia |]); simpl spontaneous_loop.
  - rewrite (n_steps_zero_inv t_end dt dt_pos t Hn). simpl.
    now rewrite app_nil_r.
  - destruct (n_steps_succ_inv t_end dt dt_pos t n Hn) as [Hgo Hn'].
    rewrite Hgo. simpl draws. simpl step_times.
    destruct (random rng) as [u rng'].
    specialize (IH (t + dt) rng').
    destruct (draws n rng') as [us rng''] eqn:Hdraws.
    unfold emitting_times in *. simpl combine. simpl filter.
    simpl fst in *. simpl snd in *.
    destruct (Qlt_bool u p).
    + rewrite IH by (trivial; lia). simpl map. simpl emitted_events.
      rewrite event_at_formatted, <- app_assoc. reflexivity.
    + rewrite IH by (trivial; lia). reflexivity.
Qed.

Lemma spontaneous_loop_starved (n : nat) :
  forall (t : Q) (rng : Rng) (out : list Event) (idx fuel : nat),
    n_steps t t_end dt = n -> (fuel <= n)%nat ->
    fst (spontaneous_loop fuel w t_end dt p prefix rng out idx t)
    = OutOfFuel.
Proof.
  induction n as [| n IH]; intros t rng out idx fuel Hn Hfuel;
    (destruct fuel as [| fuel]; [reflexivity |]); [lia |].
  simpl spontaneous_loop.
  destruct (n_steps_succ_inv t_end dt dt_pos t n Hn) as [Hgo Hn'].
  rewrite Hgo. destruct (random rng) as [u rng'].
  destruct (Qlt_bool u p); apply IH; trivial; lia.
Qed.

End GeneratorRuns.

(** * Further properties of the geometry *)

#[local] Instance position_at_comp (w : WorldLine) :
  Proper (Qeq ==> Qeq) (position_at w).
Proof. intros t t' Ht. unfold position_at. now rewrite Ht. Qed.

(** ** Intersections *)


(** ** Null lines and the light-versus-rest encounter *)


(** X6: [light_vs_rest_interaction] raises exactly when the direction
    is neither -1 nor +1, and then it is the [ValueError] of
    [null_line_through]; the division of the solver never raises, for
    any [c] and any positions. *)
Theorem light_vs_rest_interaction_errors (light_start : Event) (rest_x : Q)
    (direction : Z) (c : Q) :
  let r := light_vs_rest_interaction light_start rest_x direction c in
  ((exists e, r = Raise e) <-> direction <> (-1)%Z /\ direction <> 1%Z)
  /\ (forall e, r = Raise e -> e = ValueError "direction must be -1 or +1")
  /\ r <> OutOfFuel.
Proof.
  intro r. unfold r, light_vs_rest_interaction.
  destruct (Z.eq_dec direction (-1)) as [Hm | Hm];
    [| destruct (Z.eq_dec direction 1) as [Hp | Hp]].
  3: { rewrite null_line_through_invalid by trivial. simpl.
       repeat split; try discriminate; trivial.
       - intros _. eexists. reflexivity.
       - intros e He. now inversion He. }
  all: rewrite null_line_through_valid by auto; simpl bind.
  all: match goal with
       | |- context [intersection_event ?l ?s ?lb] =>
           destruct (intersection_event_cases l s lb)
             as [[_ ->] | [_ [t [-> _]]]]
       end; simpl bind; try destruct (Qlt_bool _ _).
  all: split; [split; [intros [e He]; discriminate He | intros [? ?]; lia] |].
  all: split; [intros e He; discriminate He | discriminate].
Qed.

(** ** The classifier *)



(** * Further properties of the two samplers *)

(** ** Emitting times and emitted events *)

Lemma emitted_events_times (w : WorldLine) (prefix : string) (ts : list Q) :
  forall idx : nat, map ev_t (emitted_events w prefix idx ts) = ts.
Proof.
  induction ts as [| t ts IH]; intro idx; simpl; [| rewrite IH]; reflexivity.
Qed.

Lemma emitted_events_labels (w : WorldLine) (prefix : string)
    (ts : list Q) :
  forall idx : nat,
    map ev_label (emitted_events w prefix idx ts)
    = map (format_label prefix) (seq idx (List.length ts)).
Proof.
  induction ts as [| t ts IH]; intro idx; simpl; [| rewrite IH]; reflexivity.
Qed.

(** ** Decimal labels *)

Lemma to_uint_not_Nil (n : nat) : Nat.to_uint n <> Decimal.Nil.
Proof.
  rewrite <- (Unsigned.of_to n) at 1. rewrite Unsigned.to_of.
  unfold Decimal.unorm. destruct (Decimal.nzhead _); discriminate.
Qed.

Lemma str_nat_inj (i j : nat) : str_nat i = str_nat j -> i = j.
Proof.
  unfold str_nat. intro Heq.
  apply (f_equal NilZero.uint_of_string) in Heq.
  rewrite !NilZero.usu in Heq by apply to_uint_not_Nil.
  inversion Heq as [Hu]. now apply Unsigned.to_uint_inj.
Qed.

Lemma append_inj_r (s a b : string) : (s ++ a = s ++ b)%string -> a = b.
Proof.
  induction s as [| ch s IH]; simpl; intro Heq; [exact Heq |].
  inversion Heq. auto.
Qed.

Lemma format_label_inj (prefix : string) (i j : nat) :
  format_label prefix i = format_label prefix j -> i = j.
Proof.
  unfold format_label. intro Heq.
  apply append_inj_r in Heq. simpl in Heq. inversion Heq as [Hs].
  now apply str_nat_inj.
Qed.

(** ** What a returned list looks like *)

Lemma spontaneous_events_returns {Rng : Type} `{RandomSource Rng}
    (w : WorldLine) (t_start t_end dt p : Q) (rng rng' : Rng)
    (prefix : string) (fuel : nat) (out : list Event) :
  spontaneous_events w t_start t_end dt p rng prefix fuel = (Ok out, rng') ->
  0 < dt /\ 0 <= p /\ p <= 1
  /\ (n_steps t_start t_end dt < fuel)%nat
  /\ out = emitted_events w prefix 0
             (emitting_times p
                (step_times (n_steps t_start t_end dt) t_start dt)
                (fst (draws (n_steps t_start t_end dt) rng)))
  /\ rng' = snd (draws (n_steps t_start t_end dt) rng).
Proof.
  intro Hrun.
  destruct (Qlt_le_dec 0 dt) as [Hdt | Hdt];
    [| rewrite spontaneous_events_bad_dt in Hrun by trivial;
       discriminate Hrun].
  destruct (Qlt_le_dec p 0) as [Hp0 | Hp0];
    [rewrite spontaneous_events_bad_probability in Hrun by auto;
     discriminate Hrun |].
  destruct (Qlt_le_dec 1 p) as [Hp1 | Hp1];
    [rewrite spontaneous_events_bad_probability in Hrun by auto;
     discriminate Hrun |].
  rewrite spontaneous_events_valid in Hrun by trivial.
  destruct (le_lt_dec fuel (n_steps t_start t_end dt)) as [Hlow | Hfuel].
  - apply (spontaneous_loop_starved w t_end dt p prefix Hdt _ t_start rng
             [] 0%nat fuel eq_refl) in Hlow.
    rewrite Hrun in Hlow. discriminate Hlow.
  - rewrite (spontaneous_loop_run w t_end dt p prefix Hdt _ t_start rng
               [] 0%nat fuel eq_refl Hfuel) in Hrun.
    inversion Hrun. repeat split; trivial.
Qed.

(** X11: the labels of the returned events are [<label_prefix>-0],
    [<label_prefix>-1], ... in order, without gaps, and no two events of
    one run share a label. *)
Theorem spontaneous_events_labels {Rng : Type} `{RandomSource Rng}
    (w : WorldLine) (t_start t_end dt p : Q) (rng rng' : Rng)
    (prefix : string) (fuel : nat) (out : list Event)
    (Hrun : spontaneous_events w t_start t_end dt p rng prefix fuel
            = (Ok out, rng')) :
  map ev_label out
  = map (fun k => (prefix ++ "-" ++ str_nat k)%string)
      (seq 0 (List.length out))
  /\ NoDup (map ev_label out).
Proof.
  destruct (spontaneous_events_returns _ _ _ _ _ _ _ _ _ _ Hrun)
    as (_ & _ & _ & _ & -> & _).
  assert (Hlabels := emitted_events_labels w prefix
            (emitting_times p
               (step_times (n_steps t_start t_end dt) t_start dt)
               (fst (draws (n_steps t_start t_end dt) rng))) 0).
  assert (Hlen : forall ts idx,
            List.length (emitted_events w prefix idx ts) = List.length ts).
  { intros ts idx. now rewrite <- (length_map ev_t), emitted_events_times. }
  rewrite Hlen. split; [exact Hlabels |].
  rewrite Hlabels. apply NoDup_map_NoDup_ForallPairs; [| apply seq_NoDup].
  intros i j _ _ Heq. now apply format_label_inj in Heq.
Qed.

Lemma spontaneous_events_labels_witness :
  spontaneous_events (mkWorldLine 0 (1 # 10) 0 "") 0 1 (1 # 2) (1 # 2)
    [1 # 4; 3 # 4; 1 # 10] "burst" 4
  = (Ok [mkEvent 0 (0 + (1 # 10) * (0 - 0)) "burst-0";
         mkEvent (0 + (1 # 2) + (1 # 2))
           (0 + (1 # 10) * (0 + (1 # 2) + (1 # 2) - 0)) "burst-1"],
     [])
  /\ NoDup ["burst-0"%string; "burst-1"%string].
Proof.
  assert (Hrun : spontaneous_events (mkWorldLine 0 (1 # 10) 0 "") 0 1 (1 # 2)
                   (1 # 2) [1 # 4; 3 # 4; 1 # 10] "burst" 4
                 = (Ok [mkEvent 0 (0 + (1 # 10) * (0 - 0)) "burst-0";
                        mkEvent (0 + (1 # 2) + (1 # 2))
                          (0 + (1 # 10) * (0 + (1 # 2) + (1 # 2) - 0))
                          "burst-1"], [])) by reflexivity.
  split; [exact Hrun |].
  exact (proj2 (@spontaneous_events_labels (list Q) scripted_source
                  _ _ _ _ _ _ _ _ _ _ Hrun)).
Defined.

(** * Properties of the binary64 reading *)

Module Binary64Facts.

Import Binary64.
Local Open Scope float_scope.

(** ** Comparisons of floats

    A comparison of two floats is a comparison of their keys; a goal on
    float comparisons then is a goal of linear integer arithmetic. *)

Lemma SFcompare_key (x y : spec_float) :
  match SFcompare x y with
  | Some Lt => key_lt (order_key x) (order_key y)
  | Some Eq => key_eq (order_key x) (order_key y)
  | Some Gt => key_lt (order_key y) (order_key x)
  | None => order_key x = None \/ order_key y = None
  end.
Proof.
  destruct x as [[] | [] | | [] m e], y as [[] | [] | | [] m' e']; simpl;
    try lia; auto;
    destruct (Z.compare_spec e e'); try lia;
    change (Pos.compare_cont Eq m m') with (Pos.compare m m');
    destruct (Pos.compare_spec m m'); simpl; try lia.
Qed.

Lemma key_lt_irrefl (k : option (Z * Z * Z)) : ~ key_lt k k.
Proof. destruct k as [[[a b] c] |]; simpl; lia. Qed.

Lemma key_trichotomy (k1 k2 : option (Z * Z * Z)) :
  key_lt k1 k2 -> ~ key_eq k1 k2 /\ ~ key_lt k2 k1.
Proof.
  destruct k1 as [[[a b] c] |], k2 as [[[a' b'] c'] |]; simpl; lia.
Qed.

Lemma ltb_key (x y : float) : (x <? y) = true <-> key_lt (fkey x) (fkey y).
Proof.
  rewrite FloatAxioms.ltb_spec. unfold SFltb, fkey.
  assert (Hk := SFcompare_key (Prim2SF x) (Prim2SF y)).
  destruct (SFcompare (Prim2SF x) (Prim2SF y)) as [[] |].
  - split; [discriminate |]. intro Hlt.
    destruct (order_key (Prim2SF x)) as [[[a b] c] |],
      (order_key (Prim2SF y)) as [[[a' b'] c'] |]; simpl in *; lia.
  - tauto.
  - split; [discriminate |]. intro Hlt.
    apply key_trichotomy in Hk. tauto.
  - split; [discriminate |].
    destruct Hk as [-> | ->]; simpl; [tauto |].
    destruct (order_key (Prim2SF x)) as [[[a b] c] |]; simpl; tauto.
Qed.

Lemma eqb_key (x y : float) : (x =? y) = true <-> key_eq (fkey x) (fkey y).
Proof.
  rewrite FloatAxioms.eqb_spec. unfold SFeqb, fkey.
  assert (Hk := SFcompare_key (Prim2SF x) (Prim2SF y)).
  destruct (SFcompare (Prim2SF x) (Prim2SF y)) as [[] |].
  - tauto.
  - split; [discriminate |]. intro He. apply key_trichotomy in Hk. tauto.
  - split; [discriminate |]. intro He. apply key_trichotomy in Hk.
    destruct (order_key (Prim2SF x)) as [[[a b] c] |],
      (order_key (Prim2SF y)) as [[[a' b'] c'] |]; simpl in *; lia.
  - split; [discriminate |].
    destruct Hk as [-> | ->]; simpl; [tauto |].
    destruct (order_key (Prim2SF x)) as [[[a b] c] |]; simpl; tauto.
Qed.

Lemma leb_key (x y : float) :
  (x <=? y) = true <-> key_lt (fkey x) (fkey y) \/ key_eq (fkey x) (fkey y).
Proof.
  rewrite <- ltb_key, <- eqb_key.
  rewrite FloatAxioms.leb_spec, FloatAxioms.ltb_spec, FloatAxioms.eqb_spec.
  unfold SFleb, SFltb, SFeqb.
  destruct (SFcompare (Prim2SF x) (Prim2SF y)) as [[] |];
    intuition discriminate.
Qed.

Lemma ltb_key_false (x y : float) :
  (x <? y) = false <-> ~ key_lt (fkey x) (fkey y).
Proof. rewrite <- ltb_key. destruct (x <? y); intuition congruence. Qed.

Lemma leb_key_false (x y : float) :
  (x <=? y) = false
  <-> ~ (key_lt (fkey x) (fkey y) \/ key_eq (fkey x) (fkey y)).
Proof. rewrite <- leb_key. destruct (x <=? y); intuition congruence. Qed.

Lemma eqb_key_false (x y : float) :
  (x =? y) = false <-> ~ key_eq (fkey x) (fkey y).
Proof. rewrite <- eqb_key. destruct (x =? y); intuition congruence. Qed.

Lemma order_key_opp (x : spec_float) :
  order_key (SFopp x) = key_opp (order_key x).
Proof.
  destruct x as [[] | [] | | [] m e]; simpl; trivial.
  now rewrite Z.opp_involutive.
Qed.

Lemma order_key_abs (x : spec_float) :
  order_key (SFabs x) = key_abs (order_key x).
Proof.
  destruct x as [[] | [] | | [] m e]; simpl; trivial.
  now rewrite Z.opp_involutive.
Qed.

Lemma fkey_opp (x : float) : fkey (- x) = key_opp (fkey x).
Proof. unfold fkey. rewrite FloatAxioms.opp_spec. apply order_key_opp. Qed.

Lemma fkey_abs (x : float) : fkey (abs x) = key_abs (fkey x).
Proof. unfold fkey. rewrite FloatAxioms.abs_spec. apply order_key_abs. Qed.

Lemma fkey_zero : fkey 0 = Some (0, 0, 0)%Z.
Proof. reflexivity. Qed.

Lemma fkey_wf (x : float) : key_wf (fkey x).
Proof.
  unfold fkey. destruct (Prim2SF x) as [[] | [] | | [] m e]; simpl; lia.
Qed.

(** Turn every comparison of floats into a statement on keys, then
    decide it by linear arithmetic. *)
Ltac float_order :=
  try match goal with
  | |- (_ <? _) = true => apply ltb_key
  | |- (_ <? _) = false => apply ltb_key_false
  | |- (_ <=? _) = true => apply leb_key
  | |- (_ <=? _) = false => apply leb_key_false
  | |- (_ =? _) = true => apply eqb_key
  | |- (_ =? _) = false => apply eqb_key_false
  | |- _ => exfalso
  end;
  repeat match goal with
  | H : (_ <? _) = true |- _ => apply ltb_key in H; revert H
  | H : (_ <? _) = false |- _ => apply ltb_key_false in H; revert H
  | H : (_ <=? _) = true |- _ => apply leb_key in H; revert H
  | H : (_ <=? _) = false |- _ => apply leb_key_false in H; revert H
  | H : (_ =? _) = true |- _ => apply eqb_key in H; revert H
  | H : (_ =? _) = false |- _ => apply eqb_key_false in H; revert H
  end;
  rewrite ?fkey_abs, ?fkey_opp, ?fkey_zero;
  repeat match goal with
  | |- context [fkey ?x] =>
      generalize (fkey_wf x); generalize (fkey x); intros [[[? ?] ?] |]
  end;
  unfold key_wf, key_abs, key_opp, key_lt, key_eq;
  repeat match goal with
  | |- context [(?a <? 0)%Z] => destruct (Z.ltb_spec a 0)
  end;
  simpl; try lia; try tauto.

(** ** Interval classifier *)

Lemma spacetime_interval_squared_outcome `{FloatRuntime} (a b : Event)
    (c : float) :
  let dt := ev_t b - ev_t a in
  let dx := ev_x b - ev_x a in
  spacetime_interval_squared a b c
  = if (is_finite (c * dt) && is_infinity (float_pow2 (c * dt)))
       || (is_finite dx && is_infinity (float_pow2 dx))
    then Raise OverflowError
    else Ok (float_pow2 (c * dt) - float_pow2 dx).
Proof.
  unfold spacetime_interval_squared, py_square. cbv zeta.
  destruct (is_finite (c * (ev_t b - ev_t a))
            && is_infinity (float_pow2 (c * (ev_t b - ev_t a))));
    [reflexivity |].
  destruct (is_finite (ev_x b - ev_x a)
            && is_infinity (float_pow2 (ev_x b - ev_x a))); reflexivity.
Qed.

Lemma classify_interval_thresholds `{FloatRuntime} (a b : Event)
    (c tol s2 : float) :
  (0 <=? tol) = true ->
  spacetime_interval_squared a b c = Ok s2 ->
  ((abs s2 <=? tol) = true -> classify_interval a b c tol = Ok NULL)
  /\ ((tol <? s2) = true -> classify_interval a b c tol = Ok TIMELIKE)
  /\ ((s2 <? - tol) = true -> classify_interval a b c tol = Ok SPACELIKE)
  /\ ~ ((abs s2 <=? tol) = true /\ (tol <? s2) = true)
  /\ ~ ((abs s2 <=? tol) = true /\ (s2 <? - tol) = true)
  /\ ~ ((tol <? s2) = true /\ (s2 <? - tol) = true)
  /\ ((s2 =? s2) = true ->
      (abs s2 <=? tol) = true \/ (tol <? s2) = true \/ (s2 <? - tol) = true)
  /\ ((s2 =? s2) = false ->
      classify_interval a b c tol = Ok SPACELIKE
      /\ (abs s2 <=? tol) = false /\ (tol <? s2) = false
      /\ (s2 <? - tol) = false).
Proof.
  intros Htol Hs2. unfold classify_interval. rewrite Hs2. simpl bind.
  destruct (abs s2 <=? tol) eqn:Hnull; [| destruct (0 <? s2) eqn:Hpos];
    unfold not; repeat split; intros;
    repeat match goal with H : _ /\ _ |- _ => destruct H end;
    try reflexivity; try discriminate; try solve [float_order];
    solve [ left; reflexivity | left; float_order
          | right; left; float_order | right; right; float_order ].
Qed.

(** C5 (amended): for [tol >= 0].  When the square of a finite [c * dt]
    or of a finite [dx] is infinite, [spacetime_interval_squared] and
    [classify_interval] raise [OverflowError].  Otherwise
    [spacetime_interval_squared] returns the float [s2] that is
    [(c * dt) ** 2 - dx ** 2] with every operation rounded, and
    [classify_interval] returns NULL when [|s2| <= tol], TIMELIKE when
    [s2 > tol] and SPACELIKE when [s2 < -tol].  No two of the three
    conditions hold together, and one of them holds whenever [s2] is a
    number.  A NaN [s2] (the difference of two infinite squares) meets
    none of them and is classified SPACELIKE. *)
Theorem classify_interval_cases_binary64 `{FloatRuntime} (a b : Event)
    (c tol : float) (Htol : (0 <=? tol) = true) :
  let dt := ev_t b - ev_t a in
  let dx := ev_x b - ev_x a in
  let overflows := fun x => is_finite x && is_infinity (float_pow2 x) in
  let s2 := float_pow2 (c * dt) - float_pow2 dx in
  (overflows (c * dt) || overflows dx = true ->
   spacetime_interval_squared a b c = Raise OverflowError
   /\ classify_interval a b c tol = Raise OverflowError)
  /\ (overflows (c * dt) || overflows dx = false ->
      spacetime_interval_squared a b c = Ok s2
      /\ ((abs s2 <=? tol) = true -> classify_interval a b c tol = Ok NULL)
      /\ ((tol <? s2) = true -> classify_interval a b c tol = Ok TIMELIKE)
      /\ ((s2 <? - tol) = true ->
          classify_interval a b c tol = Ok SPACELIKE)
      /\ ~ ((abs s2 <=? tol) = true /\ (tol <? s2) = true)
      /\ ~ ((abs s2 <=? tol) = true /\ (s2 <? - tol) = true)
      /\ ~ ((tol <? s2) = true /\ (s2 <? - tol) = true)
      /\ ((s2 =? s2) = true ->
          (abs s2 <=? tol) = true \/ (tol <? s2) = true
          \/ (s2 <? - tol) = true)
      /\ ((s2 =? s2) = false ->
          classify_interval a b c tol = Ok SPACELIKE
          /\ (abs s2 <=? tol) = false /\ (tol <? s2) = false
          /\ (s2 <? - tol) = false)).
Proof.
  intros dt dx overflows s2.
  assert (Hout := spacetime_interval_squared_outcome a b c).
  cbv zeta in Hout. fold dt dx in Hout.
  fold (overflows (c * dt)) (overflows dx) s2 in Hout.
  split; intro Hover; rewrite Hover in Hout.
  - split; [exact Hout |]. unfold classify_interval. now rewrite Hout.
  - split; [exact Hout |].
    exact (classify_interval_thresholds a b c tol s2 Htol Hout).
Qed.

(** The events (0, 0) and (2, 1) of the repository's test: [s2 = 3]. *)
Lemma classify_interval_cases_binary64_witness :
  (0 <=? 1e-9) = true
  /\ @spacetime_interval_squared correctly_rounded (mkEvent 0 0 "")
       (mkEvent 2 1 "") 1
     = Ok 3
  /\ @classify_interval correctly_rounded (mkEvent 0 0 "") (mkEvent 2 1 "")
       1 1e-9
     = Ok TIMELIKE.
Proof.
  split; [reflexivity |].
  destruct (proj2 (@classify_interval_cases_binary64 correctly_rounded
                     (mkEvent 0 0 "") (mkEvent 2 1 "") 1 1e-9 eq_refl)
              eq_refl)
    as (Hs2 & _ & Htime & _).
  split; [exact Hs2 |]. apply Htime. reflexivity.
Defined.

(** The claim as stated fails at three inputs with [tol >= 0]: the
    events (0, 0) and (1e200, 0), whose square overflows; the events
    (0, -1e308) and (1e200, 1e308) with [c = 1e200], whose [s2] is NaN
    and which are SPACELIKE although [s2 < -tol] is false; the events
    (0, 0) and (1 + 2^-52, 1) with [tol = 2^-51], which are NULL although
    the real number [(c dt)^2 - dx^2] exceeds [tol]. *)
Lemma classify_interval_cases_counterexample :
  (0 <=? 1e-9) = true
  /\ @classify_interval correctly_rounded (mkEvent 0 0 "")
       (mkEvent 1e200 0 "") 1 1e-9
     = Raise OverflowError
  /\ (exists s2,
        @spacetime_interval_squared correctly_rounded (mkEvent 0 (-1e308) "")
          (mkEvent 1e200 1e308 "") 1e200 = Ok s2
        /\ @classify_interval correctly_rounded (mkEvent 0 (-1e308) "")
             (mkEvent 1e200 1e308 "") 1e200 1e-9 = Ok SPACELIKE
        /\ (abs s2 <=? 1e-9) = false /\ (1e-9 <? s2) = false
        /\ (s2 <? - 1e-9) = false)
  /\ (exists dt dx tol : Q,
        value (0x1.0000000000001p+0 - 0) = Some dt
        /\ value (1 - 0) = Some dx
        /\ value 0x1p-51 = Some tol
        /\ (tol < (1 * dt) * (1 * dt) - dx * dx)%Q
        /\ @classify_interval correctly_rounded (mkEvent 0 0 "")
             (mkEvent 0x1.0000000000001p+0 1 "") 1 0x1p-51
           = Ok NULL).
Proof.
  split; [reflexivity |]. split; [reflexivity |]. split.
  - eexists. repeat split; reflexivity.
  - eexists _, _, _. repeat split; reflexivity.
Qed.

(** ** Intersection solver *)

Lemma py_div_defined (x y : float) :
  (y =? 0) = false -> py_div x y = Ok (x / y).
Proof. intro Hy. unfold py_div. now rewrite Hy. Qed.

Lemma guard_nonzero (d tol : float) :
  (0 <=? tol) = true -> (abs d <=? tol) = false -> (d =? 0) = false.
Proof. intros H0 H1. float_order. Qed.

Lemma intersection_time_cases (a b : WorldLine) (tol : float) :
  (0 <=? tol) = true ->
  ((abs (wl_v a - wl_v b) <=? tol) = true
   /\ intersection_time a b tol = Ok None)
  \/ ((abs (wl_v a - wl_v b) <=? tol) = false
      /\ (wl_v a - wl_v b =? 0) = false
      /\ intersection_time a b tol
         = Ok (Some (((wl_x0 b - wl_v b * wl_t0 b)
                      - (wl_x0 a - wl_v a * wl_t0 a))
                     / (wl_v a - wl_v b)))).
Proof.
  intro Htol. unfold intersection_time. cbv zeta.
  destruct (abs (wl_v a - wl_v b) <=? tol) eqn:Hnear; [left; auto |].
  right. assert (Hd := guard_nonzero _ _ Htol Hnear).
  rewrite py_div_defined by exact Hd. auto.
Qed.

Lemma intersection_tol_nonneg :
  (0 <=? default_intersection_tol) = true.
Proof. reflexivity. Qed.

(** C2 (amended): for [tol >= 0], [intersection_time] returns absent
    exactly when the rounded difference [denom = a.v - b.v] has
    [|denom| <= tol]; otherwise it returns the float
    [(b_const - a_const) / denom] with [const = x0 - v * t0], every
    operation rounded, the divisor is not zero, and nothing is raised. *)
Theorem intersection_time_binary64 (a b : WorldLine) (tol : float)
    (Htol : (0 <=? tol) = true) :
  let denom := wl_v a - wl_v b in
  let a_const := wl_x0 a - wl_v a * wl_t0 a in
  let b_const := wl_x0 b - wl_v b * wl_t0 b in
  (intersection_time a b tol = Ok None <-> (abs denom <=? tol) = true)
  /\ ((abs denom <=? tol) = false ->
      intersection_time a b tol = Ok (Some ((b_const - a_const) / denom))
      /\ (denom =? 0) = false)
  /\ (forall e, intersection_time a b tol <> Raise e)
  /\ intersection_time a b tol <> OutOfFuel.
Proof.
  intros denom a_const b_const. subst denom a_const b_const.
  destruct (intersection_time_cases a b tol Htol)
    as [[Hnear ->] | [Hfar [Hd ->]]].
  - repeat split; intros; trivial; try discriminate; congruence.
  - repeat split; intros; trivial; try discriminate; congruence.
Qed.

(** The lines [x = -1 + t] and [x = 1 - t] meet at [t = 1]. *)
Lemma intersection_time_binary64_witness :
  (0 <=? 1e-12) = true
  /\ intersection_time (mkWorldLine (-1) 1 0 "a") (mkWorldLine 1 (-1) 0 "b")
       1e-12
     = Ok (Some 1).
Proof.
  split; [reflexivity |].
  apply (proj1 (proj2 (intersection_time_binary64
                         (mkWorldLine (-1) 1 0 "a") (mkWorldLine 1 (-1) 0 "b")
                         1e-12 eq_refl))).
  reflexivity.
Defined.

(** The claim as stated fails at three inputs: with [tol = -1] and equal
    velocities the call raises [ZeroDivisionError]; with [a.v = 1],
    [b.v = -1e-17] and [tol = 1] the result is absent although the real
    number [|a.v - b.v|] exceeds [tol]; and for the lines
    [WorldLine(0, 1, 0.1)] and [WorldLine(0.3, 0, 0.1)] the returned
    time 0.4 does not solve the equation of the two lines as the
    program evaluates them. *)
Lemma intersection_time_counterexample :
  intersection_time (mkWorldLine 0 1 0 "") (mkWorldLine 1 1 0 "") (-1)
  = Raise ZeroDivisionError
  /\ (exists va vb tol : Q,
        value 1 = Some va /\ value (-1e-17) = Some vb /\ value 1 = Some tol
        /\ (tol < Qabs (va - vb))%Q
        /\ intersection_time (mkWorldLine 0 1 0 "")
             (mkWorldLine 1 (-1e-17) 0 "") 1
           = Ok None)
  /\ (let a := mkWorldLine 0 1 0.1 "" in
      let b := mkWorldLine 0.3 0 0.1 "" in
      intersection_time a b 1e-12 = Ok (Some 0.4)
      /\ position_at a 0.4 = 0.30000000000000004
      /\ position_at b 0.4 = 0.3
      /\ (position_at a 0.4 =? position_at b 0.4) = false).
Proof.
  split; [reflexivity |]. split.
  - eexists _, _, _. repeat split; reflexivity.
  - repeat split; reflexivity.
Qed.

Lemma intersection_event_closed (a b : WorldLine) (label : string) :
  intersection_event a b label
  = if abs (wl_v a - wl_v b) <=? 1e-12 then Ok None
    else
      let t := ((wl_x0 b - wl_v b * wl_t0 b) - (wl_x0 a - wl_v a * wl_t0 a))
               / (wl_v a - wl_v b) in
      Ok (Some (mkEvent t (wl_x0 a + wl_v a * (t - wl_t0 a)) label)).
Proof.
  unfold intersection_event.
  destruct (intersection_time_cases a b default_intersection_tol
              intersection_tol_nonneg)
    as [[Hnear ->] | [Hfar [_ ->]]];
    change default_intersection_tol with 1e-12 in *;
    rewrite ?Hnear, ?Hfar; reflexivity.
Qed.

Lemma null_line_built (event : Event) (direction : Z) (c : float)
    (label : string) :
  direction = (-1)%Z \/ direction = 1%Z ->
  null_line_through event direction c label
  = Ok (mkWorldLine (ev_x event) (float_of_Z direction * c) (ev_t event)
          label).
Proof. intros [-> | ->]; reflexivity. Qed.

(** C3: for a direction in {-1, +1} nothing is raised.  The null line
    has velocity [direction * c] and starts at [light_start]; the
    stationary line stays at [rest_x].  [intersection_event] finds no
    unique intersection when the rounded [|v - 0.0|] is at most [1e-12],
    and otherwise the event [m] at the computed time [t], placed on the
    null line.  [light_vs_rest_interaction] returns absent when
    [intersection_event] is absent, and when the time of the event it
    found is strictly before [light_start.t]; it returns that event
    otherwise.  From [Event(0, 0)] with [rest_x = 5] the result is the
    event at [t = 5], [x = 5] for [direction = +1] and absent for
    [direction = -1]. *)
Theorem light_vs_rest_interaction_binary64 (light_start : Event)
    (rest_x : float) (direction : Z) (c : float)
    (Hdir : direction = (-1)%Z \/ direction = 1%Z) :
  let v := float_of_Z direction * c in
  let light := mkWorldLine (ev_x light_start) v (ev_t light_start) "photon" in
  let rest := mkWorldLine rest_x 0 (ev_t light_start) "rest-object" in
  let t := ((rest_x - 0 * ev_t light_start)
            - (ev_x light_start - v * ev_t light_start)) / (v - 0) in
  let m := mkEvent t (ev_x light_start + v * (t - ev_t light_start))
             "light-rest interaction" in
  let meet := intersection_event light rest "light-rest interaction" in
  let r := light_vs_rest_interaction light_start rest_x direction c in
  null_line_through light_start direction c "photon" = Ok light
  /\ meet = (if abs (v - 0) <=? 1e-12 then Ok None else Ok (Some m))
  /\ (meet = Ok None -> r = Ok None)
  /\ (forall e, meet = Ok (Some e) ->
        (ev_t e <? ev_t light_start) = true -> r = Ok None)
  /\ (forall e, meet = Ok (Some e) ->
        (ev_t e <? ev_t light_start) = false -> r = Ok (Some e))
  /\ (forall e, r <> Raise e) /\ r <> OutOfFuel
  /\ float_of_Z 1 = 1 /\ float_of_Z (-1) = -1
  /\ light_vs_rest_interaction (mkEvent 0 0 "") 5 1 1
     = Ok (Some (mkEvent 5 5 "light-rest interaction"))
  /\ light_vs_rest_interaction (mkEvent 0 0 "") 5 (-1) 1 = Ok None
  /\ default_c = 1.
Proof.
  intros v light rest t m meet r.
  assert (Hlight := null_line_built light_start direction c "photon" Hdir).
  fold v light in Hlight.
  assert (Hmeet : meet = if abs (v - 0) <=? 1e-12 then Ok None
                         else Ok (Some m))
    by apply intersection_event_closed.
  assert (Hr : r = match meet with
                   | Ok None => Ok None
                   | Ok (Some e) =>
                       if ev_t e <? ev_t light_start then Ok None
                       else Ok (Some e)
                   | Raise e => Raise e
                   | OutOfFuel => OutOfFuel
                   end).
  { unfold r, light_vs_rest_interaction. rewrite Hlight. simpl bind.
    fold rest meet. now destruct meet as [[e |] | e |]. }
  split; [exact Hlight |]. split; [exact Hmeet |].
  rewrite Hr. clear Hr.
  destruct (abs (v - 0) <=? 1e-12); rewrite Hmeet.
  - repeat split; trivial; try discriminate.
  - repeat split; trivial; try discriminate.
    + intros e He Hlt. inversion He. subst e. now rewrite Hlt.
    + intros e He Hge. inversion He. subst e. now rewrite Hge.
    + intros e. destruct (ev_t m <? ev_t light_start); discriminate.
    + destruct (ev_t m <? ev_t light_start); discriminate.
Qed.

Lemma light_vs_rest_interaction_binary64_witness :
  (1 = (-1) \/ 1 = 1)%Z
  /\ intersection_event (mkWorldLine 0 1 0 "photon")
       (mkWorldLine 5 0 0 "rest-object") "light-rest interaction"
     = Ok (Some (mkEvent 5 5 "light-rest interaction"))
  /\ light_vs_rest_interaction (mkEvent 0 0 "") 5 1 1
     = Ok (Some (mkEvent 5 5 "light-rest interaction")).
Proof.
  assert (Hdir : (1 = (-1) \/ 1 = 1)%Z) by (right; reflexivity).
  split; [exact Hdir |].
  destruct (light_vs_rest_interaction_binary64 (mkEvent 0 0 "") 5 1 1 Hdir)
    as (_ & Hmeet & _ & _ & Hlater & _).
  split; [exact Hmeet |].
  apply Hlater; [exact Hmeet | reflexivity].
Defined.

(** ** Two events of one world line *)









(** ** The loops of the two samplers

    [runs_for n] says that the loop body runs exactly [n] times.  With
    more than [n] units of fuel the loop then returns; with [n] or fewer
    it is out of fuel.  A loop whose variable is left unchanged by
    [t += dt] is out of fuel whatever the fuel: the program never
    returns. *)



Lemma event_at_numbered (w : WorldLine) (t : float) (prefix : string)
    (idx : nat) :
  event_at w t (format_label prefix idx)
  = mkEvent t (position_at w t) (format_label prefix idx).
Proof.
  unfold event_at. assert (Hne := format_label_nonempty prefix idx).
  destruct (format_label prefix idx); [congruence | reflexivity].
Qed.


Section GeneratorRuns.

Context {Rng : Type} `{RandomSource Rng}.
Variables (w : WorldLine) (t_end dt p : float) (prefix : string).


Lemma spontaneous_loop_finishes (n : nat) :
  forall (t : float) (rng : Rng) (out : list Event) (idx fuel : nat),
    runs_for n t t_end dt = true -> (n < fuel)%nat ->
    spontaneous_loop fuel w t_end dt p prefix rng out idx t
    = (Ok (out ++ emitted_events w prefix idx
                    (emitting_times p (step_times n t dt)
                       (fst (draws n rng)))),
       snd (draws n rng)).
Proof.
  induction n as [| n IH]; intros t rng out idx fuel Hn Hfuel;
    (destruct fuel as [| fuel]; [lia |]); cbn [runs_for] in Hn;
    cbn [spontaneous_loop].
  - apply negb_true_iff in Hn. rewrite Hn. simpl. now rewrite app_nil_r.
  - apply andb_true_iff in Hn. destruct Hn as [Hgo Hn].
    rewrite Hgo. cbn [draws step_times].
    destruct (random rng) as [u rng'].
    specialize (IH (t + dt) rng').
    destruct (draws n rng') as [us rng''] eqn:Hdraws.
    unfold emitting_times in *. cbn [combine filter fst snd] in *.
    destruct (u <? p).
    + rewrite IH by (trivial; lia). cbn [map fst emitted_events].
      rewrite event_at_numbered, <- app_assoc. reflexivity.
    + rewrite IH by (trivial; lia). reflexivity.
Qed.


Lemma spontaneous_loop_absorbed (t : float) :
  t + dt = t -> (t <=? t_end + loop_slack) = true ->
  forall (fuel : nat) (rng : Rng) (out : list Event) (idx : nat),
    fst (spontaneous_loop fuel w t_end dt p prefix rng out idx t)
    = OutOfFuel.
Proof.
  intros Hsame Hgo. induction fuel as [| fuel IH]; intros rng out idx;
    [reflexivity |].
  cbn [spontaneous_loop]. rewrite Hgo, Hsame.
  destruct (random rng) as [u rng']. destruct (u <? p); apply IH.
Qed.




Lemma spontaneous_events_checked (t_start : float) (rng : Rng) (fuel : nat) :
  (dt <=? 0) = false -> (0 <=? p) = true -> (p <=? 1) = true ->
  spontaneous_events w t_start t_end dt p rng prefix fuel
  = spontaneous_loop fuel w t_end dt p prefix rng [] 0%nat t_start.
Proof.
  intros Hdt Hp0 Hp1. unfold spontaneous_events.
  now rewrite Hdt, Hp0, Hp1.
Qed.


End GeneratorRuns.

(** ** The divisor of the centroid

    A count below [2^53] converts to a float exactly, so [max(1, n)] is
    a non-zero divisor. *)

Lemma digits2_size (p : positive) : digits2_pos p = Pos.size p.
Proof. induction p; simpl; congruence. Qed.

Lemma digits2_iter (k p : positive) :
  digits2_pos (Pos.iter xO p k) = (digits2_pos p + k)%positive.
Proof.
  induction k as [| k IH] using Pos.peano_ind.
  - simpl. lia.
  - rewrite Pos.iter_succ. simpl. rewrite IH. lia.
Qed.

Lemma digits2_bound (p : positive) :
  (Zpos p < 2 ^ 53)%Z -> (Zpos (digits2_pos p) <= 53)%Z.
Proof.
  intro Hlt. rewrite digits2_size.
  assert (Hle := Pos.size_le p).
  destruct (Z_le_gt_dec (Zpos (Pos.size p)) 53) as [? | Hgt]; trivial.
  exfalso.
  assert (H54 : (2 ^ 54 <= 2 ^ Zpos (Pos.size p))%Z)
    by (apply Z.pow_le_mono_r; lia).
  assert (Hpow : (2 ^ Zpos (Pos.size p) <= 2 * Zpos p)%Z).
  { apply Pos2Z.pos_le_pos in Hle. rewrite Pos2Z.inj_pow in Hle.
    rewrite Pos2Z.inj_xO in Hle. exact Hle. }
  change (2 ^ 54)%Z with (2 * 2 ^ 53)%Z in H54. lia.
Qed.

Lemma shr_fexp_canonical (mz : positive) (ez : Z) :
  Zpos (digits2_pos mz) = 53%Z -> (-1074 <= ez)%Z ->
  shr_fexp prec emax (Zpos mz) ez loc_Exact
  = ({| shr_m := Zpos mz; shr_r := false; shr_s := false |}, ez).
Proof.
  intros Hd He. unfold shr_fexp, fexp, SpecFloat.emin, Zdigits2.
  rewrite Hd. change prec with 53%Z. change emax with 1024%Z.
  replace (Z.max (53 + ez - 53) (3 - 1024 - 53) - ez)%Z with 0%Z by lia.
  reflexivity.
Qed.

Lemma binary_round_aux_canonical (mz : positive) (ez : Z) :
  Zpos (digits2_pos mz) = 53%Z -> (-1074 <= ez <= 971)%Z ->
  binary_round_aux prec emax false (Zpos mz) ez loc_Exact
  = S754_finite false mz ez.
Proof.
  intros Hd He. unfold binary_round_aux.
  rewrite shr_fexp_canonical by (trivial; lia).
  cbn [shr_m loc_of_shr_record round_nearest_even].
  rewrite shr_fexp_canonical by (trivial; lia).
  cbn [shr_m]. change prec with 53%Z. change emax with 1024%Z.
  destruct (Z.leb_spec ez (1024 - 53)); [reflexivity | lia].
Qed.

Lemma binary_round_small (p : positive) :
  (Zpos p < 2 ^ 53)%Z ->
  exists m e, binary_normalize prec emax (Zpos p) 0 false
              = S754_finite false m e.
Proof.
  intro Hlt. assert (Hd := digits2_bound p Hlt).
  unfold binary_normalize, binary_round, shl_align, fexp, SpecFloat.emin.
  change prec with 53%Z. change emax with 1024%Z.
  rewrite Z.add_0_r, Z.sub_0_r.
  rewrite Z.max_l by lia.
  destruct (Zpos (digits2_pos p) - 53)%Z as [| k | k] eqn:Hk; try lia.
  - exists p, 0%Z. apply binary_round_aux_canonical; lia.
  - eexists _, _. apply binary_round_aux_canonical; [| lia].
    rewrite digits2_iter. lia.
Qed.

Lemma of_uint63_nonzero (p : positive) :
  (Zpos p < 2 ^ 53)%Z ->
  (of_uint63 (Uint63.of_Z (Zpos p)) =? 0) = false.
Proof.
  intro Hlt.
  destruct (binary_round_small p Hlt) as [m [e Hsf]].
  rewrite FloatAxioms.eqb_spec, FloatAxioms.of_uint63_spec.
  rewrite Uint63.of_Z_spec.
  rewrite Z.mod_small; [| split; [lia |]].
  - rewrite Hsf. reflexivity.
  - apply Z.lt_trans with (2 ^ 53)%Z; [exact Hlt | reflexivity].
Qed.

Lemma count_divisor_nonzero (n : nat) :
  (Z.of_nat n < 2 ^ 53)%Z ->
  (float_of_Z (Z.max 1 (Z.of_nat n)) =? 0) = false.
Proof.
  intro Hn.
  destruct (Z.max 1 (Z.of_nat n)) as [| p | p] eqn:Hmax; try lia.
  unfold float_of_Z. apply of_uint63_nonzero.
  assert (H53 : (1 < 2 ^ 53)%Z) by reflexivity. lia.
Qed.

Lemma sample_at_length (lines : list WorldLine) (t : float) :
  List.length (sample_at lines t) = List.length lines.
Proof. unfold sample_at. apply length_map. Qed.

Section SamplerRuns.

Context `{FloatRuntime}.
Variables (lines : list WorldLine) (t_end dt : float).
Variables (predicate : float -> list Event -> bool) (label : string).
Hypothesis few_lines : (Z.of_nat (List.length lines) < 2 ^ 53)%Z.

Lemma centroid_division (t : float) :
  py_div (py_sum (map ev_x (sample_at lines t)))
    (float_of_Z (Z.max 1 (Z.of_nat (List.length (sample_at lines t)))))
  = Ok (centroid (sample_at lines t)).
Proof.
  unfold centroid. apply py_div_defined.
  rewrite sample_at_length. now apply count_divisor_nonzero.
Qed.



Lemma conditional_loop_absorbed (t : float) :
  t + dt = t -> (t <=? t_end + loop_slack) = true ->
  forall (fuel : nat) (out : list Event),
    conditional_loop fuel lines t_end dt predicate label out t = OutOfFuel.
Proof.
  intros Hsame Hgo. induction fuel as [| fuel IH]; intro out;
    [reflexivity |].
  cbn [conditional_loop]. rewrite Hgo, Hsame.
  destruct (predicate t (sample_at lines t)); [| apply IH].
  rewrite centroid_division. cbn [bind]. apply IH.
Qed.




End SamplerRuns.

Lemma conditional_simulation_checked `{FloatRuntime} (lines : list WorldLine)
    (t_start t_end dt : float) (predicate : float -> list Event -> bool)
    (label : string) (fuel : nat) :
  (dt <=? 0) = false ->
  conditional_simulation lines t_start t_end dt predicate label fuel
  = conditional_loop fuel lines t_end dt predicate label [] t_start.
Proof. intro Hdt. unfold conditional_simulation. now rewrite Hdt. Qed.


(** ** The values of the loop variable and the labels *)

Lemma step_times_length (n : nat) :
  forall t dt : float, List.length (step_times n t dt) = n.
Proof. induction n; intros t dt; simpl; auto. Qed.


Lemma emitted_events_ev_t (w : WorldLine) (prefix : string)
    (ts : list float) :
  forall idx, map ev_t (emitted_events w prefix idx ts) = ts.
Proof.
  induction ts as [| t ts IH]; intro idx; simpl; [| rewrite IH]; reflexivity.
Qed.



(** ** Termination and number of iterations *)




(** ** The stochastic generator *)



(** ** The conditional sampler *)




(** * Further properties of the binary64 reading *)

(** ** Intersections *)

(** X2: [intersection_event] never raises.  It is absent exactly when
    the rounded difference of the two velocities is within [1e-12] of
    zero; otherwise it is the event labelled [label] at the time that
    [intersection_time] computes, placed at the position of line [a] at
    that time, as the program evaluates it. *)
Theorem intersection_event_binary64 (a b : WorldLine) (label : string) :
  let denom := wl_v a - wl_v b in
  let a_const := wl_x0 a - wl_v a * wl_t0 a in
  let b_const := wl_x0 b - wl_v b * wl_t0 b in
  let t := (b_const - a_const) / denom in
  (intersection_event a b label = Ok None <-> (abs denom <=? 1e-12) = true)
  /\ ((abs denom <=? 1e-12) = false ->
      intersection_event a b label
      = Ok (Some (mkEvent t (wl_x0 a + wl_v a * (t - wl_t0 a)) label))
      /\ (denom =? 0) = false)
  /\ (forall e, intersection_event a b label <> Raise e)
  /\ intersection_event a b label <> OutOfFuel.
Proof.
  intros denom a_const b_const t. subst denom a_const b_const t.
  unfold intersection_event.
  destruct (intersection_time_cases a b default_intersection_tol
              intersection_tol_nonneg)
    as [[Hnear ->] | [Hfar [Hd ->]]]; simpl bind;
    change default_intersection_tol with 1e-12 in *.
  - repeat split; intros; trivial; try discriminate; congruence.
  - repeat split; intros; trivial; try discriminate; congruence.
Qed.

(** X19: the causality filter acts on the rounded meeting time.  A
    photon emitted at [t = 0.1] from the very position [x = 0.7] of the
    object at rest is computed to meet it at 0.09999999999999998, before
    its emission, and the result is absent; a photon emitted at
    [t = 0.1] from 0 towards an object at rest at 0.3 meets it at
    [t = 0.4], and the event is placed at 0.30000000000000004. *)
Theorem light_vs_rest_interaction_rounded :
  light_vs_rest_interaction (mkEvent 0.1 0.7 "") 0.7 1 1 = Ok None
  /\ intersection_event (mkWorldLine 0.7 1 0.1 "photon")
       (mkWorldLine 0.7 0 0.1 "rest-object") "light-rest interaction"
     = Ok (Some (mkEvent 0.09999999999999998 0.7 "light-rest interaction"))
  /\ (0.09999999999999998 <? 0.1) = true
  /\ light_vs_rest_interaction (mkEvent 0.1 0 "") 0.3 1 1
     = Ok (Some (mkEvent 0.4 0.30000000000000004 "light-rest interaction")).
Proof. repeat split; reflexivity. Qed.

(** ** What a returned list looks like *)





(** ** The extreme probabilities *)

Section GeneratorExtremes.

Context {Rng : Type} `{RandomSource Rng}.
Hypothesis unit_draws : forall s : Rng,
  (0 <=? fst (random s)) = true /\ (fst (random s) <? 1) = true.

Lemma emitting_times_never (n : nat) :
  forall (ts : list float) (rng : Rng),
    emitting_times 0 ts (fst (draws n rng)) = [].
Proof.
  unfold emitting_times.
  induction n as [| n IH]; intros ts rng; cbn [draws].
  - destruct ts; reflexivity.
  - destruct (unit_draws rng) as [H0 _].
    destruct (random rng) as [u rng']. cbn [fst] in H0.
    specialize (IH (tl ts) rng').
    destruct (draws n rng') as [us rng'']. cbn [fst] in *.
    destruct ts as [| t ts]; [reflexivity |]. cbn [combine filter snd tl] in *.
    assert (Hu : (u <? 0) = false) by float_order.
    now rewrite Hu.
Qed.

Lemma emitting_times_always (n : nat) :
  forall (ts : list float) (rng : Rng),
    List.length ts = n -> emitting_times 1 ts (fst (draws n rng)) = ts.
Proof.
  unfold emitting_times.
  induction n as [| n IH]; intros ts rng Hlen; cbn [draws].
  - destruct ts; [reflexivity | discriminate].
  - destruct (unit_draws rng) as [_ H1].
    destruct (random rng) as [u rng']. cbn [fst] in H1.
    destruct ts as [| t ts]; [discriminate |].
    specialize (IH ts rng').
    destruct (draws n rng') as [us rng'']. cbn [fst] in *.
    cbn [combine filter snd]. rewrite H1. cbn [map fst].
    f_equal. apply IH. now inversion Hlen.
Qed.

End GeneratorExtremes.

(** X16: with a source whose samples lie in [[0, 1)], as [random()]
    promises, and a loop that ends after [n] steps, probability 0 emits
    no event and probability 1 emits one event per step, at the [n]
    values of the loop variable. *)
Theorem spontaneous_events_extremes_binary64 {Rng : Type} `{RandomSource Rng}
    (w : WorldLine) (t_start t_end dt : float) (rng : Rng) (prefix : string)
    (fuel n : nat)
    (Hunit : forall s : Rng,
        (0 <=? fst (random s)) = true /\ (fst (random s) <? 1) = true)
    (Hdt : (dt <=? 0) = false)
    (Hn : runs_for n t_start t_end dt = true) (Hfuel : (n < fuel)%nat) :
  fst (spontaneous_events w t_start t_end dt 0 rng prefix fuel) = Ok []
  /\ exists out,
       fst (spontaneous_events w t_start t_end dt 1 rng prefix fuel) = Ok out
       /\ map ev_t out = step_times n t_start dt
       /\ List.length out = n.
Proof.
  split.
  - rewrite spontaneous_events_checked by (trivial; reflexivity).
    rewrite (spontaneous_loop_finishes w t_end dt 0 prefix n) by trivial.
    cbn [fst]. now rewrite (emitting_times_never Hunit).
  - rewrite spontaneous_events_checked by (trivial; reflexivity).
    rewrite (spontaneous_loop_finishes w t_end dt 1 prefix n) by trivial.
    cbn [fst].
    rewrite (emitting_times_always Hunit) by apply step_times_length.
    eexists. split; [reflexivity |].
    cbn [app]. split; [apply emitted_events_ev_t |].
    rewrite <- (length_map ev_t), emitted_events_ev_t.
    apply step_times_length.
Qed.

Lemma spontaneous_events_extremes_binary64_witness :
  (forall s : unit,
      (0 <=? fst (@random unit constant_source s)) = true
      /\ (fst (@random unit constant_source s) <? 1) = true)
  /\ (0.1 <=? 0) = false /\ runs_for 4 0 0.3 0.1 = true /\ (4 < 5)%nat
  /\ fst (@spontaneous_events unit constant_source (mkWorldLine 0 0.1 0 "")
            0 0.3 0.1 0 tt "s" 5) = Ok []
  /\ exists out,
       fst (@spontaneous_events unit constant_source (mkWorldLine 0 0.1 0 "")
              0 0.3 0.1 1 tt "s" 5) = Ok out
       /\ map ev_t out = [0; 0.1; 0.2; 0.30000000000000004]
       /\ List.length out = 4%nat.
Proof.
  assert (Hunit : forall s : unit,
             (0 <=? fst (@random unit constant_source s)) = true
             /\ (fst (@random unit constant_source s) <? 1) = true)
    by (intro s; split; reflexivity).
  assert (Hdt : (0.1 <=? 0) = false) by reflexivity.
  assert (Hn : runs_for 4 0 0.3 0.1 = true) by reflexivity.
  assert (Hfuel : (4 < 5)%nat) by lia.
  repeat (split; [assumption |]).
  exact (@spontaneous_events_extremes_binary64 unit constant_source
           (mkWorldLine 0 0.1 0 "") 0 0.3 0.1 tt "s" 5 4 Hunit Hdt Hn Hfuel).
Defined.

(** ** A step too small for the loop variable *)

(** X18: when the checks pass, the test holds of [t_start] and
    [t_start + dt] rounds to [t_start], the loop variable never moves:
    both samplers are out of fuel whatever the fuel, that is, the
    program does not return. *)
Theorem time_stepping_absorbed {Rng : Type} `{RandomSource Rng}
    `{FloatRuntime} (w : WorldLine) (lines : list WorldLine)
    (predicate : float -> list Event -> bool) (label prefix : string)
    (t_start t_end dt p : float) (rng : Rng) (fuel : nat)
    (Hdt : (dt <=? 0) = false)
    (Hp0 : (0 <=? p) = true) (Hp1 : (p <=? 1) = true)
    (Hlines : (Z.of_nat (List.length lines) < 2 ^ 53)%Z)
    (Hsame : t_start + dt = t_start)
    (Hgo : (t_start <=? t_end + 1e-12) = true) :
  fst (spontaneous_events w t_start t_end dt p rng prefix fuel) = OutOfFuel
  /\ conditional_simulation lines t_start t_end dt predicate label fuel
     = OutOfFuel.
Proof.
  split.
  - rewrite spontaneous_events_checked by trivial.
    now apply spontaneous_loop_absorbed.
  - rewrite conditional_simulation_checked by trivial.
    now apply conditional_loop_absorbed.
Qed.

Lemma time_stepping_absorbed_witness :
  (1 <=? 0) = false /\ (0 <=? 0.5) = true /\ (0.5 <=? 1) = true
  /\ (Z.of_nat (List.length [line_a; line_b]) < 2 ^ 53)%Z
  /\ 1e16 + 1 = 1e16 /\ (1e16 <=? 1e17 + 1e-12) = true
  /\ forall fuel,
       fst (spontaneous_events (mkWorldLine 0 0.1 0 "") 1e16 1e17 1 0.5
              [0.25; 0.75] "s" fuel) = OutOfFuel
       /\ @conditional_simulation correctly_rounded [line_a; line_b] 1e16 1e17
            1 close_predicate "c" fuel
          = OutOfFuel.
Proof.
  assert (Hdt : (1 <=? 0) = false) by reflexivity.
  assert (Hp0 : (0 <=? 0.5) = true) by reflexivity.
  assert (Hp1 : (0.5 <=? 1) = true) by reflexivity.
  assert (Hlines : (Z.of_nat (List.length [line_a; line_b]) < 2 ^ 53)%Z)
    by reflexivity.
  assert (Hsame : 1e16 + 1 = 1e16) by reflexivity.
  assert (Hgo : (1e16 <=? 1e17 + 1e-12) = true) by reflexivity.
  repeat (split; [assumption |]).
  intro fuel.
  exact (@time_stepping_absorbed (list float) scripted_source
           correctly_rounded (mkWorldLine 0 0.1 0 "") [line_a; line_b]
           close_predicate "c" "s" 1e16 1e17 1 0.5 [0.25; 0.75] fuel
           Hdt Hp0 Hp1 Hlines Hsame Hgo).
Defined.

End Binary64Facts.
